(** * GotifyClientMac: the application-icon generator (generate_app_icons.py)

    A shallow embedding of the script's icon pipeline and of its command
    line driver, with the properties of its specification stated against
    the embedding.

    Definitions:
    - [PyFloat]: Python's [float] (IEEE-754 binary64, round to nearest,
      ties to even) with the operations the script uses: [int * float],
      [int - float], comparison with zero, [int(x)];
    - [Imaging]: the part of the imaging toolkit the script calls, with
      the pixel semantics of [Image.new], [Image.paste] and [putalpha];
    - [World]: the file system, the events of a run and the state and
      exception monad of the script;
    - [Script]: [hex_to_rgb], [create_rounded_rectangle_mask],
      [convert_svg_to_png], [generate_icon] and [main];
    - [Spec]: the wording of the specification where it departs from the
      script; [Run]: the predicates on runs; [Colour], [Ratio], [Canvas],
      [Tool], [Trace]: the notions of the further properties;
      [Fixtures]: concrete worlds.

    Properties: a weakest-precondition calculus for the monad, the ranges
    of the float operations, then the properties of [generate_icon] and
    [main] and their instances on the concrete worlds; last the further
    properties of every function of the script, X1 to X21, and their
    instances. *)

From Stdlib Require Import ZArith Lia List Bool Ascii String.
From stdpp Require Import base gmap strings pretty.

Local Open Scope Z_scope.

(* ===================================================================== *)
(** ** Python floats *)
(* ===================================================================== *)

Module PyFloat.

(** A finite double is the dyadic rational [m * 2^e]; the two zeros are
    not told apart (no operation of the script can observe the sign of a
    zero through [int()] or [> 0]). *)
Inductive float : Type :=
| Fin (m e : Z)
| PInf
| NInf
| NaN.

Definition prec : Z := 53.
Definition emin : Z := -1074.
Definition emax : Z := 1024.

(** [a / 2^k] for [k > 0], rounded to nearest, ties to even. *)
Definition round_shift (a k : Z) : Z :=
  let q := Z.shiftr a k in
  let r := Z.land a (Z.ones k) in
  let half := Z.shiftl 1 (k - 1) in
  if (half <? r) || ((r =? half) && Z.odd q) then q + 1 else q.

(** Rounding of the positive dyadic [a * 2^e] to at most 53 significant
    bits above the subnormal limit [2^emin]. *)
Definition round_pos (a e : Z) : Z * Z :=
  let e' := Z.max (e + Z.log2 a + 1 - prec) emin in
  if e' <=? e then (a, e) else (round_shift a (e' - e), e').

(** Rounding of the exact value [m * 2^e] to a double. *)
Definition round_dy (m e : Z) : float :=
  if m =? 0 then Fin 0 0
  else
    let '(a, e') := round_pos (Z.abs m) e in
    if emax <=? Z.log2 a + e' then (if m <? 0 then NInf else PInf)
    else Fin (Z.sgn m * a) e'.

(** The correctly rounded double nearest to [n / d] ([d > 0]): how a
    decimal literal such as [0.2237] (= 2237/10000) is read. The quotient
    keeps at least 55 bits and a sticky bit. *)
Definition of_ratio (n d : Z) : float :=
  if n =? 0 then Fin 0 0
  else
    let a := Z.abs n in
    let k := Z.max 0 (56 + Z.log2 d - Z.log2 a) in
    let q := Z.shiftl a k / d in
    let sticky := if Z.shiftl a k mod d =? 0 then 0 else 1 in
    round_dy (Z.sgn n * (2 * q + sticky)) (- k - 1).

Definition fmul (x y : float) : float :=
  match x, y with
  | NaN, _ | _, NaN => NaN
  | Fin m1 e1, Fin m2 e2 => round_dy (m1 * m2) (e1 + e2)
  | Fin m _, PInf | PInf, Fin m _ =>
      if m =? 0 then NaN else if m <? 0 then NInf else PInf
  | Fin m _, NInf | NInf, Fin m _ =>
      if m =? 0 then NaN else if m <? 0 then PInf else NInf
  | PInf, PInf | NInf, NInf => PInf
  | PInf, NInf | NInf, PInf => NInf
  end.

Definition fsub (x y : float) : float :=
  match x, y with
  | NaN, _ | _, NaN => NaN
  | Fin m1 e1, Fin m2 e2 =>
      let e := Z.min e1 e2 in
      round_dy (m1 * 2 ^ (e1 - e) - m2 * 2 ^ (e2 - e)) e
  | PInf, PInf | NInf, NInf => NaN
  | PInf, _ | _, NInf => PInf
  | NInf, _ | _, PInf => NInf
  end.

(** [x > 0] *)
Definition gt0 (x : float) : bool :=
  match x with
  | Fin m _ => 0 <? m
  | PInf => true
  | NInf | NaN => false
  end.

(** The exceptions of the conversions. *)
Inductive conv_error : Type :=
| IntOfNaN        (* ValueError: cannot convert float NaN to integer *)
| IntOfInfinity   (* OverflowError: cannot convert float infinity to integer *)
| IntTooLarge.    (* OverflowError: int too large to convert to float *)

(** The implicit conversion of an [int] operand of a mixed operation. *)
Definition of_int (z : Z) : conv_error + float :=
  match round_dy z 0 with
  | Fin m e => inr (Fin m e)
  | _ => inl IntTooLarge
  end.

(** Truncation toward zero of the finite double [m * 2^e]. *)
Definition trunc (m e : Z) : Z :=
  if 0 <=? e then m * 2 ^ e else Z.quot m (2 ^ (- e)).

(** The floor of the same value, and the nearest integer to it (ties to
    even); the script uses neither, the specification names both. *)
Definition floor (m e : Z) : Z :=
  if 0 <=? e then m * 2 ^ e else m / 2 ^ (- e).

Definition nearest (m e : Z) : Z :=
  if 0 <=? e then m * 2 ^ e else Z.sgn m * round_shift (Z.abs m) (- e).

(** [int(x)] *)
Definition to_int (x : float) : conv_error + Z :=
  match x with
  | Fin m e => inr (trunc m e)
  | PInf | NInf => inl IntOfInfinity
  | NaN => inl IntOfNaN
  end.

(** The ranges the properties below speak of: a finite double of
    magnitude below [2^B], a double that is not negative, a finite double
    that is at most one, or at most one half. *)
Definition finite_below (B : Z) (x : float) : Prop :=
  match x with
  | Fin m e => m = 0 \/ Z.log2 (Z.abs m) + e < B
  | _ => False
  end.

Definition nonneg (x : float) : Prop :=
  match x with
  | Fin m _ => 0 <= m
  | _ => False
  end.

Definition at_most_one (x : float) : Prop :=
  match x with
  | Fin m e => if 0 <=? e then m * 2 ^ e <= 1 else m <= 2 ^ (- e)
  | _ => False
  end.

Definition at_most_half (x : float) : Prop :=
  match x with
  | Fin m e => at_most_one (Fin (2 * m) e)
  | _ => False
  end.

(** Expressions that convert are computations in the error monad. *)
Definition conv (A : Type) : Type := conv_error + A.

#[global] Instance conv_ret : MRet conv := fun A a => inr a.
#[global] Instance conv_bind : MBind conv := fun A B k c =>
  match c with
  | inl err => inl err
  | inr a => k a
  end.

(** [n * x] with [n] an [int] and [x] a [float]. *)
Definition int_mul (n : Z) (x : float) : conv float :=
  f ← of_int n; mret (fmul f x).

(** [n - x] with [n] an [int] and [x] a [float]. *)
Definition int_sub (n : Z) (x : float) : conv float :=
  f ← of_int n; mret (fsub f x).

(** [1 - 2 * x] *)
Definition one_minus_twice (x : float) : conv float :=
  d ← int_mul 2 x; int_sub 1 d.

(** [int(n * x)] *)
Definition int_times (n : Z) (x : float) : conv Z :=
  v ← int_mul n x; to_int v.

End PyFloat.


(* ===================================================================== *)
(** ** The imaging toolkit *)
(* ===================================================================== *)

Module Imaging.

(** The two modes the script uses: ['L'] (one band) and ['RGBA']. *)
Inductive mode : Type := L | RGBA.

(** The bands of a pixel, red, green, blue, alpha; a pixel of an ['L']
    image keeps its value in the first band. *)
Definition pixel : Type := Z * Z * Z * Z.

Definition band_r (p : pixel) : Z := let '(r, _, _, _) := p in r.
Definition band_g (p : pixel) : Z := let '(_, g, _, _) := p in g.
Definition band_b (p : pixel) : Z := let '(_, _, b, _) := p in b.
Definition band_a (p : pixel) : Z := let '(_, _, _, a) := p in a.

Definition transparent : pixel := (0, 0, 0, 0).

Record image : Type := Image {
  im_mode : mode;
  width : Z;
  height : Z;
  px : Z -> Z -> pixel
}.

Definition inside (im : image) (x y : Z) : bool :=
  (0 <=? x) && (x <? width im) && (0 <=? y) && (y <? height im).

(** [Image.new(mode, (w, h), color)]; the size check is made by the
    operation of the script's monad that calls it. *)
Definition new (m : mode) (w h : Z) (color : pixel) : image :=
  {| im_mode := m; width := w; height := h; px := fun _ _ => color |}.

(** The toolkit's rounded division by 255 and its blend of two bands:
    [mask = 0] keeps [dst], [mask = 255] takes [src], the values between
    mix the two. *)
Definition div255 (a : Z) : Z :=
  let tmp := a + 128 in Z.shiftr (Z.shiftr tmp 8 + tmp) 8.

Definition blend (mask dst src : Z) : Z :=
  div255 (dst * (255 - mask) + src * mask).

Definition blend_pixel (mask : Z) (dst src : pixel) : pixel :=
  (blend mask (band_r dst) (band_r src),
   blend mask (band_g dst) (band_g src),
   blend mask (band_b dst) (band_b src),
   blend mask (band_a dst) (band_a src)).

(** The band of a mask image that [paste] reads: the alpha band of an
    ['RGBA'] mask, the only band of an ['L'] mask. *)
Definition mask_value (mask : image) (x y : Z) : Z :=
  match im_mode mask with
  | L => band_r (px mask x y)
  | RGBA => band_a (px mask x y)
  end.

(** [dst.paste(src, (ox, oy))] and [dst.paste(src, (ox, oy), mask)], the
    mask being of the size of [src] (the script always passes [src]
    itself). The pasted region is clipped to [dst]. With a mask every
    band of the destination, its alpha band included, is blended: the
    toolkit's documentation of [paste] reads "Where the mask is 255, the
    given image is copied as is. Where the mask is 0, the current value
    is preserved. Intermediate values will mix the two images together,
    including their alpha channels if they have them." *)
Definition paste (dst src : image) (ox oy : Z) (mask : option image) : image :=
  {| im_mode := im_mode dst; width := width dst; height := height dst;
     px := fun x y =>
       if inside src (x - ox) (y - oy) then
         match mask with
         | None => px src (x - ox) (y - oy)
         | Some m =>
             blend_pixel (mask_value m (x - ox) (y - oy))
                         (px dst x y) (px src (x - ox) (y - oy))
         end
       else px dst x y |}.

(** [im.putalpha(mask)] with an ['L'] mask of the size of [im]. *)
Definition putalpha (im mask : image) : image :=
  {| im_mode := im_mode im; width := width im; height := height im;
     px := fun x y =>
       let '(r, g, b, _) := px im x y in (r, g, b, mask_value mask x y) |}.

(** [im.convert('RGBA')] *)
Definition convert_rgba (im : image) : image :=
  match im_mode im with
  | RGBA => im
  | L =>
      {| im_mode := RGBA; width := width im; height := height im;
         px := fun x y => let v := band_r (px im x y) in (v, v, v, 255) |}
  end.

(** [ImageDraw.Draw(im).rounded_rectangle([(x0, y0), (x1, y1)], radius,
    fill)]: the pixels the primitive covers are set to [fill]. Which
    pixels a rounded rectangle covers is the toolkit's scan conversion,
    a parameter [cover x0 y0 x1 y1 radius x y] of the model. *)
Definition rounded_rectangle
    (cover : Z -> Z -> Z -> Z -> Z -> Z -> Z -> bool)
    (im : image) (x0 y0 x1 y1 radius : Z) (fill : pixel) : image :=
  {| im_mode := im_mode im; width := width im; height := height im;
     px := fun x y =>
       if inside im x y && cover x0 y0 x1 y1 radius x y then fill
       else px im x y |}.

(** [im.filter(ImageFilter.GaussianBlur(radius))]: an image of the same
    mode and size; the blurred pixels are the toolkit's, a parameter
    [kernel radius im x y] of the model. *)
Definition gaussian_blur
    (kernel : Z -> image -> Z -> Z -> pixel) (radius : Z) (im : image) : image :=
  {| im_mode := im_mode im; width := width im; height := height im;
     px := kernel radius im |}.

End Imaging.

(* ===================================================================== *)
(** ** The world of the script *)
(* ===================================================================== *)

Module World.

Import Imaging.

(** A path is a directory and a file name: [output_dir / filename] is
    [(output_dir, filename)]. Directories and files live in separate
    name spaces. *)
Definition path : Type := string * string.

(** What a file holds: a raster image (a PNG file) or anything else (the
    vector source among them). *)
Inductive file : Type :=
| Png (im : image)
| Blob (content : string).

Record fsys : Type := Fsys {
  files : gmap path file;
  dirs : gset string
}.

Definition exists_file (fs : fsys) (p : path) : bool :=
  bool_decide (is_Some (files fs !! p)).

Definition write_file (p : path) (f : file) (fs : fsys) : fsys :=
  {| files := <[p := f]> (files fs); dirs := dirs fs |}.

Definition remove_file (p : path) (fs : fsys) : fsys :=
  {| files := delete p (files fs); dirs := dirs fs |}.

Definition make_dir (d : string) (fs : fsys) : fsys :=
  {| files := files fs; dirs := {[ d ]} ∪ dirs fs |}.

(** One run of the rasterizer process [rsvg-convert -w n -h n svg -o out]:
    its exit status, what it wrote on its standard error, and the raster
    it left at the output path, if any. *)
Record rsvg_result : Type := RsvgResult {
  exit_ok : bool;
  stderr : string;
  produced : option image
}.

(** The names the script binds its images to. *)
Inductive var : Type :=
| VIcon | VContent | VMask | VRoundedOutput | VFinalOutput | VShadow.

(** The lines the script prints. *)
Inductive message : Type :=
| MsgConvertFailed (err : string)
| MsgRsvgNotFound
| MsgInstallHint
| MsgSvgMissing (p : path)
| MsgBanner (svg : path) (output_dir color : string) (bg : Z * Z * Z)
| MsgPadding (x : PyFloat.float)
| MsgScale (x : PyFloat.float)
| MsgRounded (yes : bool)
| MsgCornerPadding (x : PyFloat.float)
| MsgShadow (ox oy blur opacity : PyFloat.float)
| MsgBlank
| MsgGenerating (size : Z) (filename : string)
| MsgOk
| MsgFailed
| MsgDone (success total : Z)
| MsgNextStep (output_dir : string).

(** The calls the script makes to the outside world, in order. *)
Inductive event : Type :=
| EvPrint (m : message)
| EvRsvg (svg out : path) (size : Z)
| EvNew (v : var) (m : mode) (w h : Z) (color : pixel)
| EvOpen (v : var) (p : path)
| EvPaste (dst src : var) (ox oy : Z) (mask : option var)
| EvPutAlpha (dst mask : var)
| EvRoundedRectangle (on : var) (x0 y0 x1 y1 radius : Z) (fill : pixel)
| EvBlur (on : var) (radius : Z)
| EvSave (v : var) (p : path) (w h : Z)
| EvRemove (p : path)
| EvMkdir (d : string).

(** The exceptions that leave a function of the script. *)
Inductive exn : Type :=
| ConvError (e : PyFloat.conv_error)   (* int() of nan or inf, float() of a huge int *)
| BadSize (w h : Z)                    (* ValueError of Image.new *)
| BadColor (s : string)                (* ValueError of int(s, 16) *)
| FileNotFound (p : path)
| NotAnImage (p : path)                (* UnidentifiedImageError *)
| SystemExit (code : Z).

(** State and exception monad with a trace: a computation takes the file
    system and gives a result or an exception, the file system it leaves
    and the events it emitted. *)
Record outcome (A : Type) : Type := Outcome {
  result : exn + A;
  final : fsys;
  emitted : list event
}.
Arguments Outcome {A} _ _ _.
Arguments result {A} _.
Arguments final {A} _.
Arguments emitted {A} _.

Definition M (A : Type) : Type := fsys -> outcome A.

Definition ret {A} (a : A) : M A := fun fs => Outcome (inr a) fs [].

Definition raise {A} (e : exn) : M A := fun fs => Outcome (inl e) fs [].

Definition bind {A B} (c : M A) (k : A -> M B) : M B :=
  fun fs =>
    match c fs with
    | Outcome (inl e) fs1 ev1 => Outcome (inl e) fs1 ev1
    | Outcome (inr a) fs1 ev1 =>
        match k a fs1 with
        | Outcome r fs2 ev2 => Outcome r fs2 (ev1 ++ ev2)
        end
    end.

Definition emit (e : event) : M unit := fun fs => Outcome (inr tt) fs [e].

Definition get_fs : M fsys := fun fs => Outcome (inr fs) fs [].

Definition modify_fs (f : fsys -> fsys) : M unit :=
  fun fs => Outcome (inr tt) (f fs) [].

Definition lift_conv {A} (c : PyFloat.conv_error + A) : M A :=
  match c with
  | inl e => raise (ConvError e)
  | inr a => ret a
  end.

#[global] Instance M_ret : MRet M := @ret.
#[global] Instance M_bind : MBind M := fun A B k c => bind c k.

End World.

(* ===================================================================== *)
(** ** The script *)
(* ===================================================================== *)

Module Script.

Import PyFloat Imaging World.

(** [ICON_SIZES] *)
Definition ICON_SIZES : list (Z * string) :=
  [ (40, "icon_40.png"); (60, "icon_60.png"); (58, "icon_58.png");
    (87, "icon_87.png"); (80, "icon_80.png"); (120, "icon_120.png");
    (180, "icon_180.png");
    (20, "icon_20.png"); (29, "icon_29.png"); (76, "icon_76.png");
    (152, "icon_152.png"); (167, "icon_167.png");
    (1024, "icon_1024.png");
    (16, "icon_16.png"); (32, "icon_32.png"); (64, "icon_64.png");
    (128, "icon_128.png"); (256, "icon_256.png"); (512, "icon_512.png") ].

(** *** hex_to_rgb *)

Fixpoint lstrip_hash (s : string) : string :=
  match s with
  | String "#"%char s' => lstrip_hash s'
  | _ => s
  end.

Definition hex_digit (c : ascii) : option Z :=
  let n := Z.of_nat (nat_of_ascii c) in
  if (48 <=? n) && (n <=? 57) then Some (n - 48)
  else if (97 <=? n) && (n <=? 102) then Some (n - 87)
  else if (65 <=? n) && (n <=? 70) then Some (n - 55)
  else None.

Fixpoint hex_digits (acc : Z) (s : string) : option Z :=
  match s with
  | EmptyString => Some acc
  | String c s' =>
      match hex_digit c with
      | Some d => hex_digits (16 * acc + d) s'
      | None => None
      end
  end.

Definition py_space (c : ascii) : bool :=
  let n := Z.of_nat (nat_of_ascii c) in
  ((9 <=? n) && (n <=? 13)) || ((28 <=? n) && (n <=? 32)).

Fixpoint lstrip_space (s : string) : string :=
  match s with
  | String c s' => if py_space c then lstrip_space s' else s
  | EmptyString => s
  end.

Definition rstrip_space (s : string) : string :=
  String.rev (lstrip_space (String.rev s)).

(** [int(s, 16)] on the slices [hex_to_rgb] takes, which have at most two
    characters: surrounding white space and one sign are accepted, then
    at least one hexadecimal digit must follow (a prefix [0x] or an
    underscore cannot occur validly in two characters). *)
Definition int_base16 (s : string) : option Z :=
  let t := rstrip_space (lstrip_space s) in
  match t with
  | String "+"%char (String c r) => hex_digits 0 (String c r)
  | String "-"%char (String c r) => z ← hex_digits 0 (String c r); Some (- z)
  | String c r => hex_digits 0 (String c r)
  | EmptyString => None
  end.

(** The tuple [hex_to_rgb] builds, [None] when one [int(..., 16)] raises
    [ValueError]. *)
Definition parse_rgb (hex_color : string) : option (Z * Z * Z) :=
  let hex_color := lstrip_hash hex_color in
  let slice i := String.substring i 2 hex_color in
  r ← int_base16 (slice 0%nat);
  g ← int_base16 (slice 2%nat);
  b ← int_base16 (slice 4%nat);
  Some (r, g, b).

Definition hex_to_rgb (hex_color : string) : M (Z * Z * Z) :=
  match parse_rgb hex_color with
  | Some rgb => mret rgb
  | None => raise (BadColor hex_color)
  end.

(** *** The collaborators and the operations on them *)

Section Collaborators.

(** The rasterizer: [None] when no [rsvg-convert] is on the search path,
    else what a run of it does, given what the source path holds and the
    requested size. *)
Variable rsvg : option (option file -> Z -> rsvg_result).

(** The toolkit's scan conversion of a rounded rectangle and its blur. *)
Variable cover : Z -> Z -> Z -> Z -> Z -> Z -> Z -> bool.
Variable kernel : Z -> image -> Z -> Z -> pixel.

Definition image_new (v : var) (m : mode) (w h : Z) (color : pixel) : M image :=
  if (w <? 0) || (h <? 0) then raise (BadSize w h)
  else emit (EvNew v m w h color);; mret (new m w h color).

(** [Image.open(p).convert('RGBA')] *)
Definition image_open (v : var) (p : path) : M image :=
  fs ← get_fs;
  match files fs !! p with
  | None => raise (FileNotFound p)
  | Some (Blob _) => raise (NotAnImage p)
  | Some (Png im) => emit (EvOpen v p);; mret (convert_rgba im)
  end.

Definition image_paste (vd : var) (dst : image) (vs : var) (src : image)
    (ox oy : Z) (masked : bool) : M image :=
  emit (EvPaste vd vs ox oy (if masked then Some vs else None));;
  mret (paste dst src ox oy (if masked then Some src else None)).

Definition image_putalpha (vd : var) (im : image) (vm : var) (mask : image) : M image :=
  emit (EvPutAlpha vd vm);; mret (putalpha im mask).

Definition draw_rounded_rectangle (v : var) (im : image)
    (x0 y0 x1 y1 radius : Z) (fill : pixel) : M image :=
  emit (EvRoundedRectangle v x0 y0 x1 y1 radius fill);;
  mret (rounded_rectangle cover im x0 y0 x1 y1 radius fill).

Definition image_blur (v : var) (radius : Z) (im : image) : M image :=
  emit (EvBlur v radius);; mret (gaussian_blur kernel radius im).

(** [im.save(p, 'PNG')]: the directory of [p] has to exist. *)
Definition image_save (v : var) (im : image) (p : path) : M unit :=
  fs ← get_fs;
  if bool_decide (p.1 ∈ dirs fs) then
    modify_fs (write_file p (Png im));;
    emit (EvSave v p (width im) (height im))
  else raise (FileNotFound p).

(** [os.remove(p)] *)
Definition os_remove (p : path) : M unit :=
  fs ← get_fs;
  if exists_file fs p then modify_fs (remove_file p);; emit (EvRemove p)
  else raise (FileNotFound p).

Definition print (m : message) : M unit := emit (EvPrint m).

(** *** create_rounded_rectangle_mask *)

(** The literal [0.2237]: the default of [radius_ratio] and the ratio
    the shadow uses at line 157. *)
Definition default_radius_ratio : float := of_ratio 2237 10000.

Definition create_rounded_rectangle_mask (size : Z) (radius_ratio : float) : M image :=
  mask ← image_new VMask L size size (0, 0, 0, 0);
  radius ← lift_conv (int_times size radius_ratio);
  draw_rounded_rectangle VMask mask 0 0 size size radius (255, 0, 0, 0).

(** *** convert_svg_to_png *)

(** [subprocess.run] raises [FileNotFoundError] when there is no such
    program and, with [check=True], [CalledProcessError] when the process
    exits with a nonzero status; both are caught here. Whatever the
    process left at the output path stays there. *)
Definition convert_svg_to_png (svg_path output_path : path) (size : Z) : M bool :=
  emit (EvRsvg svg_path output_path size);;
  match rsvg with
  | None =>
      print MsgRsvgNotFound;;
      print MsgInstallHint;;
      mret false
  | Some run =>
      fs ← get_fs;
      let r := run (files fs !! svg_path) size in
      match produced r with
      | Some im => modify_fs (write_file output_path (Png im))
      | None => mret tt
      end;;
      if exit_ok r then mret true
      else print (MsgConvertFailed (stderr r));; mret false
  end.

(** *** generate_icon *)

(** The keyword arguments of [generate_icon]; [None] is an argument the
    caller leaves out. *)
Record kwargs : Type := Kwargs {
  kw_padding_ratio : option float;
  kw_scale_ratio : option float;
  kw_add_rounded_corners : option bool;
  kw_corner_padding_ratio : option float;
  kw_add_shadow : option bool;
  kw_shadow_offset_x : option float;
  kw_shadow_offset_y : option float;
  kw_shadow_blur : option float;
  kw_shadow_opacity : option float
}.

(** The defaults of the signature of [generate_icon]. *)
Definition padding_ratio (kw : kwargs) : float :=
  default (of_ratio 15 100) (kw_padding_ratio kw).
Definition scale_ratio (kw : kwargs) : float :=
  default (Fin 1 0) (kw_scale_ratio kw).
Definition add_rounded_corners (kw : kwargs) : bool :=
  default true (kw_add_rounded_corners kw).
Definition corner_padding_ratio (kw : kwargs) : float :=
  default (Fin 0 0) (kw_corner_padding_ratio kw).
Definition add_shadow (kw : kwargs) : bool :=
  default false (kw_add_shadow kw).
Definition shadow_offset_x (kw : kwargs) : float :=
  default (Fin 0 0) (kw_shadow_offset_x kw).
Definition shadow_offset_y (kw : kwargs) : float :=
  default (of_ratio 2 100) (kw_shadow_offset_y kw).
Definition shadow_blur (kw : kwargs) : float :=
  default (of_ratio 5 100) (kw_shadow_blur kw).
Definition shadow_opacity (kw : kwargs) : float :=
  default (of_ratio 9 10) (kw_shadow_opacity kw).

(** [/tmp/temp_icon_{size}.png] *)
Definition temp_path (size : Z) : path :=
  ("/tmp", "temp_icon_" +:+ pretty size +:+ ".png").

(** The sizes derived at the head of [generate_icon]. *)
Record geometry : Type := Geometry {
  rounded_icon_size : Z;
  rounded_icon_offset : Z;
  content_size : Z;
  scaled_content_size : Z
}.

Definition derive_geometry (size : Z) (kw : kwargs) : conv geometry :=
  '(rounded_icon_size, rounded_icon_offset) ←
    (if add_rounded_corners kw && gt0 (corner_padding_ratio kw) then
       m ← one_minus_twice (corner_padding_ratio kw);
       a ← int_times size m;
       b ← int_times size (corner_padding_ratio kw);
       mret (a, b)
     else mret (size, 0));
  m ← one_minus_twice (padding_ratio kw);
  content_size ← int_times rounded_icon_size m;
  scaled_content_size ← int_times content_size (scale_ratio kw);
  mret (Geometry rounded_icon_size rounded_icon_offset content_size scaled_content_size).

(** The shadow layer: lines 149 to 180. *)
Definition add_shadow_layer (size : Z) (g : geometry) (kw : kwargs)
    (final_output : image) : M image :=
  shadow ← image_new VShadow RGBA size size transparent;
  radius ← lift_conv (int_times (rounded_icon_size g) default_radius_ratio);
  shadow_offset_x_px ← lift_conv (int_times size (shadow_offset_x kw));
  shadow_offset_y_px ← lift_conv (int_times size (shadow_offset_y kw));
  let shadow_left := rounded_icon_offset g + shadow_offset_x_px in
  let shadow_top := rounded_icon_offset g + shadow_offset_y_px in
  let shadow_right := shadow_left + rounded_icon_size g in
  let shadow_bottom := shadow_top + rounded_icon_size g in
  alpha ← lift_conv (int_times 255 (shadow_opacity kw));
  shadow ← draw_rounded_rectangle VShadow shadow
             shadow_left shadow_top shadow_right shadow_bottom radius (0, 0, 0, alpha);
  blur_radius ← lift_conv (int_times size (shadow_blur kw));
  shadow ← (if 0 <? blur_radius then image_blur VShadow blur_radius shadow
            else mret shadow);
  image_paste VFinalOutput final_output VShadow shadow 0 0 true.

(** The rounded corners and what follows them: lines 138 to 186. The
    result is the image the name [icon] is bound to afterwards. *)
Definition round_and_composite (size : Z) (g : geometry) (kw : kwargs)
    (icon : image) : M (var * image) :=
  if add_rounded_corners kw then
    mask ← create_rounded_rectangle_mask (rounded_icon_size g) default_radius_ratio;
    rounded_output ← image_new VRoundedOutput RGBA
                       (rounded_icon_size g) (rounded_icon_size g) transparent;
    rounded_output ← image_paste VRoundedOutput rounded_output VIcon icon 0 0 false;
    rounded_output ← image_putalpha VRoundedOutput rounded_output VMask mask;
    if gt0 (corner_padding_ratio kw) || add_shadow kw then
      final_output ← image_new VFinalOutput RGBA size size transparent;
      final_output ← (if add_shadow kw then add_shadow_layer size g kw final_output
                      else mret final_output);
      final_output ← image_paste VFinalOutput final_output VRoundedOutput rounded_output
                       (rounded_icon_offset g) (rounded_icon_offset g) true;
      mret (VFinalOutput, final_output)
    else mret (VRoundedOutput, rounded_output)
  else mret (VIcon, icon).

Definition generate_icon (svg_path output_path : path) (size : Z)
    (bg_color : Z * Z * Z) (kw : kwargs) : M bool :=
  g ← lift_conv (derive_geometry size kw);
  let temp_svg_png := temp_path size in
  converted ← convert_svg_to_png svg_path temp_svg_png (scaled_content_size g);
  if negb converted then mret false
  else
    let '(r, gr, b) := bg_color in
    icon ← image_new VIcon RGBA (rounded_icon_size g) (rounded_icon_size g) (r, gr, b, 255);
    content ← image_open VContent temp_svg_png;
    let offset := (rounded_icon_size g - scaled_content_size g) / 2 in
    icon ← image_paste VIcon icon VContent content offset offset true;
    '(v, icon) ← round_and_composite size g kw icon;
    image_save v icon output_path;;
    os_remove temp_svg_png;;
    mret true.

(** *** main *)

(** The command line: the positional [svg_file] and the options, [None]
    for an option that is not given. *)
Record cli : Type := Cli {
  cli_svg_file : path;
  cli_output_dir : option string;
  cli_color : option string;
  cli_padding : option float;
  cli_scale : option float;
  cli_corner_padding : option float;
  cli_no_rounded_corners : bool;
  cli_shadow : bool;
  cli_shadow_offset_x : option float;
  cli_shadow_offset_y : option float;
  cli_shadow_blur : option float;
  cli_shadow_opacity : option float
}.

(** What [parser.parse_args()] returns: the defaults of the parser are
    filled in. *)
Record namespace : Type := Namespace {
  svg_file : path;
  output_dir : string;
  color : string;
  padding : float;
  scale : float;
  corner_padding : float;
  no_rounded_corners : bool;
  shadow : bool;
  args_shadow_offset_x : float;
  args_shadow_offset_y : float;
  args_shadow_blur : float;
  args_shadow_opacity : float
}.

Definition parse_args (c : cli) : namespace :=
  {| svg_file := cli_svg_file c;
     output_dir := default "generated-icons" (cli_output_dir c);
     color := default "#71CAEE" (cli_color c);
     padding := default (of_ratio 15 100) (cli_padding c);
     scale := default (Fin 1 0) (cli_scale c);
     corner_padding := default (Fin 0 0) (cli_corner_padding c);
     no_rounded_corners := cli_no_rounded_corners c;
     shadow := cli_shadow c;
     args_shadow_offset_x := default (Fin 0 0) (cli_shadow_offset_x c);
     args_shadow_offset_y := default (of_ratio 2 100) (cli_shadow_offset_y c);
     args_shadow_blur := default (of_ratio 5 100) (cli_shadow_blur c);
     args_shadow_opacity := default (of_ratio 3 10) (cli_shadow_opacity c) |}.

(** The keyword arguments [main] passes: every one of them. *)
Definition main_kwargs (args : namespace) : kwargs :=
  {| kw_padding_ratio := Some (padding args);
     kw_scale_ratio := Some (scale args);
     kw_add_rounded_corners := Some (negb (no_rounded_corners args));
     kw_corner_padding_ratio := Some (corner_padding args);
     kw_add_shadow := Some (shadow args);
     kw_shadow_offset_x := Some (args_shadow_offset_x args);
     kw_shadow_offset_y := Some (args_shadow_offset_y args);
     kw_shadow_blur := Some (args_shadow_blur args);
     kw_shadow_opacity := Some (args_shadow_opacity args) |}.

(** The loop over [ICON_SIZES]; the result is [success_count]. *)
Fixpoint generate_all (args : namespace) (bg_color : Z * Z * Z)
    (specs : list (Z * string)) (success_count : Z) : M Z :=
  match specs with
  | [] => mret success_count
  | (size, filename) :: rest =>
      let output_path := (output_dir args, filename) in
      print (MsgGenerating size filename);;
      ok ← generate_icon (svg_file args) output_path size bg_color (main_kwargs args);
      if ok : bool then
        print MsgOk;;
        generate_all args bg_color rest (success_count + 1)
      else
        print MsgFailed;;
        generate_all args bg_color rest success_count
  end.

Definition main (c : cli) : M unit :=
  let args := parse_args c in
  let svg_path := svg_file args in
  fs ← get_fs;
  (if exists_file fs svg_path then mret tt
   else print (MsgSvgMissing svg_path);; raise (SystemExit 1));;
  modify_fs (make_dir (output_dir args));;
  emit (EvMkdir (output_dir args));;
  bg_color ← hex_to_rgb (color args);
  print (MsgBanner svg_path (output_dir args) (color args) bg_color);;
  print (MsgPadding (fmul (padding args) (Fin 100 0)));;
  print (MsgScale (fmul (scale args) (Fin 100 0)));;
  print (MsgRounded (negb (no_rounded_corners args)));;
  (if negb (no_rounded_corners args) && gt0 (corner_padding args)
   then print (MsgCornerPadding (fmul (corner_padding args) (Fin 100 0)))
   else mret tt);;
  (if shadow args
   then print (MsgShadow (fmul (args_shadow_offset_x args) (Fin 100 0))
                         (fmul (args_shadow_offset_y args) (Fin 100 0))
                         (fmul (args_shadow_blur args) (Fin 100 0))
                         (fmul (args_shadow_opacity args) (Fin 100 0)))
   else mret tt);;
  print MsgBlank;;
  success_count ← generate_all args bg_color ICON_SIZES 0;
  print MsgBlank;;
  print (MsgDone success_count (Z.of_nat (length ICON_SIZES)));;
  print MsgBlank;;
  print (MsgNextStep (output_dir args)).

(** The exit status of the process: 0 when [main] returns, the code of
    [sys.exit], 1 for an exception nobody catches. *)
Definition exit_status {A} (o : outcome A) : Z :=
  match result o with
  | inr _ => 0
  | inl (SystemExit code) => code
  | inl _ => 1
  end.

End Collaborators.

End Script.

(* ===================================================================== *)
(** ** The wording of the specification *)
(* ===================================================================== *)

(** Definitions that follow the words of the specification where it
    departs from the script; they are compared with the script below. *)
Module Spec.

Import PyFloat.

(** [floor(n * x)] and [round(n * x)], the product being the double the
    script computes. *)
Definition of_product (f : Z -> Z -> Z) (n : Z) (x : float) : conv Z :=
  v ← int_mul n x;
  match v with
  | Fin m e => inr (f m e)
  | PInf | NInf => inl IntOfInfinity
  | NaN => inl IntOfNaN
  end.

Definition floor_times : Z -> float -> conv Z := of_product floor.
Definition round_times : Z -> float -> conv Z := of_product nearest.

(** Step 1 and the offset of step 3: "roundedSize = floor(size * (1 -
    2*cornerPadding)) ... contentSize = floor(roundedSize * (1 -
    2*padding)), then scaledContentSize = floor(contentSize *
    contentScale) ... offset = floor((roundedSize - scaledContentSize)/2)". *)
Record geometry : Type := Geometry {
  roundedSize : Z;
  roundedOffset : Z;
  contentSize : Z;
  scaledContentSize : Z;
  offset : Z
}.

Definition derive (size : Z) (roundedCorners : bool)
    (cornerPadding padding contentScale : float) : conv geometry :=
  '(roundedSize, roundedOffset) ←
    (if roundedCorners && gt0 cornerPadding then
       m ← one_minus_twice cornerPadding;
       a ← floor_times size m;
       b ← floor_times size cornerPadding;
       mret (a, b)
     else mret (size, 0));
  m ← one_minus_twice padding;
  contentSize ← floor_times roundedSize m;
  scaledContentSize ← floor_times contentSize contentScale;
  mret (Geometry roundedSize roundedOffset contentSize scaledContentSize
          ((roundedSize - scaledContentSize) / 2)).

(** The same request in exact arithmetic, for a padding [num/den] and a
    content scale of one, without rounded corners:
    [floor(size * (1 - 2 * num/den))]. *)
Definition exact_request (size num den : Z) : Z :=
  size * (den - 2 * num) / den.

(** Steps 4 and 5: "corner radius = round(roundedSize * 0.2237)". *)
Definition corner_radius (roundedSize : Z) : conv Z :=
  round_times roundedSize (of_ratio 2237 10000).

(** Step 5: "conditional on cornerPadding > 0 or shadow enabled". *)
Definition step5_performed (cornerPadding : float) (shadow : bool) : bool :=
  gt0 cornerPadding || shadow.

End Spec.

(* ===================================================================== *)
(** ** Reasoning about runs *)
(* ===================================================================== *)

Module Run.

Import PyFloat Imaging World Script.

(** A postcondition reads the result, the file system left and the events
    emitted; [wp c fs Q] holds when the run of [c] from [fs] satisfies [Q]. *)
Definition post (A : Type) : Type := exn + A -> fsys -> list event -> Prop.

Definition wp {A} (c : M A) (fs : fsys) (Q : post A) : Prop :=
  Q (result (c fs)) (final (c fs)) (emitted (c fs)).

(** A computation that neither reads nor writes the file system. *)
Definition pure {A} (c : M A) : Prop :=
  exists r ev, forall fs, c fs = Outcome r fs ev.

Definition raised {A} (r : exn + A) : Prop := exists e, r = inl e.

(** The file names an entry of the table writes to: the name of its
    transient file and its output file name. *)
Definition entry_names (specs : list (Z * string)) : list string :=
  flat_map (fun sf => [(temp_path sf.1).2; sf.2]) specs.

(** The source is none of the paths a run over [specs] writes to. *)
Definition source_untouched (svg : path) (output_dir : string)
    (specs : list (Z * string)) : Prop :=
  Forall (fun sf : Z * string =>
            svg <> temp_path sf.1 /\ svg <> (output_dir, sf.2)) specs.

(** The events that act on the canvas of step 5. *)
Definition on_final (e : event) : bool :=
  match e with
  | EvNew VFinalOutput _ _ _ _ => true
  | EvPaste VFinalOutput _ _ _ _ => true
  | EvSave VFinalOutput _ _ _ => true
  | _ => false
  end.

Definition is_rsvg (e : event) : bool :=
  match e with
  | EvRsvg _ _ _ => true
  | _ => false
  end.

Definition is_save (e : event) : bool :=
  match e with
  | EvSave _ _ _ _ => true
  | _ => false
  end.

(** The events of the rounding and compositing steps 4 and 5. *)
Definition composite_event (e : event) : bool :=
  match e with
  | EvNew (VMask | VRoundedOutput | VFinalOutput | VShadow) _ _ _ _ => true
  | EvPaste (VRoundedOutput | VFinalOutput) _ _ _ _ => true
  | EvPutAlpha _ _ => true
  | EvRoundedRectangle _ _ _ _ _ _ _ => true
  | EvBlur _ _ => true
  | _ => false
  end.

(** [z] is [int(n * x)]: the double product is finite and [z] is its
    truncation toward zero. *)
Definition truncated_product (n : Z) (x : float) (z : Z) : Prop :=
  exists m e, int_mul n x = inr (Fin m e) /\ z = trunc m e.

(** What [round_and_composite] draws: the mask over the whole rounded
    canvas and the shadow at its offset, both with the truncated radius;
    the shadow is filled with black at the truncated alpha. *)
Definition rectangle_drawn (size : Z) (g : geometry) (kw : kwargs) (e : event) : Prop :=
  match e with
  | EvRoundedRectangle on x0 y0 x1 y1 radius fill =>
      truncated_product (rounded_icon_size g) default_radius_ratio radius /\
      match on with
      | VMask =>
          (x0, y0, x1, y1) = (0, 0, rounded_icon_size g, rounded_icon_size g) /\
          fill = (255, 0, 0, 0)
      | VShadow =>
          exists sx sy alpha,
            truncated_product size (shadow_offset_x kw) sx /\
            truncated_product size (shadow_offset_y kw) sy /\
            truncated_product 255 (shadow_opacity kw) alpha /\
            x0 = rounded_icon_offset g + sx /\
            y0 = rounded_icon_offset g + sy /\
            x1 = x0 + rounded_icon_size g /\
            y1 = y0 + rounded_icon_size g /\
            fill = (0, 0, 0, alpha)
      | _ => False
      end
  | _ => True
  end.

(** The alpha a shadow rectangle is filled with. *)
Definition shadow_alpha (e : event) : option Z :=
  match e with
  | EvRoundedRectangle VShadow _ _ _ _ _ fill => Some (band_a fill)
  | _ => None
  end.




(** A corner padding in use is at most one half: the rounded canvas does
    not get a negative size. *)
Definition corner_padding_fits (kw : kwargs) : Prop :=
  add_rounded_corners kw && gt0 (corner_padding_ratio kw) = true ->
  at_most_half (corner_padding_ratio kw).


Definition is_tally (e : event) : bool :=
  match e with
  | EvPrint (MsgDone _ _) => true
  | _ => false
  end.


(** The sizes announced by the loop of [main], in order. *)
Definition announced (e : event) : option (Z * string) :=
  match e with
  | EvPrint (MsgGenerating size filename) => Some (size, filename)
  | _ => None
  end.

End Run.

(* ===================================================================== *)
(** ** Notions for the further properties *)
(* ===================================================================== *)

Module Colour.

(** The notation [rrggbb] of a colour, two hexadecimal digits a band, in
    lower or in upper case, and a run of [n] leading hash signs. The
    script only reads this notation; it is written down here to state
    what [hex_to_rgb] reads. *)
Definition hex_char (upper : bool) (d : Z) : ascii :=
  ascii_of_nat (Z.to_nat (if d <? 10 then 48 + d else if upper then 55 + d else 87 + d)).

Definition hex_byte (upper : bool) (v : Z) : string :=
  String (hex_char upper (v / 16)) (String (hex_char upper (v mod 16)) EmptyString).

Definition rrggbb (upper : bool) (rgb : Z * Z * Z) : string :=
  let '(r, g, b) := rgb in
  (hex_byte upper r +:+ hex_byte upper g +:+ hex_byte upper b)%string.

Fixpoint hashes (n : nat) : string :=
  match n with
  | O => EmptyString
  | S n' => String "#"%char (hashes n')
  end.

(** A band that fits a byte, and a colour of three such bands. *)
Definition byte (v : Z) : Prop := 0 <= v <= 255.

Definition byte_colour (rgb : Z * Z * Z) : Prop :=
  byte rgb.1.1 /\ byte rgb.1.2 /\ byte rgb.2.

End Colour.

Module Ratio.

Import PyFloat.

(** The finite double [x] is at most the integer [N]. *)
Definition at_most (N : Z) (x : float) : Prop :=
  match x with
  | Fin m e => if 0 <=? e then m * 2 ^ e <= N else m <= N * 2 ^ (- e)
  | _ => False
  end.

(** A ratio between 0 and 1, and one between 0 and one half. *)
Definition unit_ratio (x : float) : Prop := nonneg x /\ at_most_one x.

Definition half_ratio (x : float) : Prop := nonneg x /\ at_most_half x.

End Ratio.

Module Canvas.

Import Imaging Script Colour.

(** The canvas of step 3 (lines 126 to 135): the background with the
    content pasted at its centre through the content's own alpha. *)
Definition background_composite (g : geometry) (bg_color : Z * Z * Z) (c : image) : image :=
  let '(r, gr, b) := bg_color in
  let content := convert_rgba c in
  let offset := (rounded_icon_size g - scaled_content_size g) / 2 in
  paste (new RGBA (rounded_icon_size g) (rounded_icon_size g) (r, gr, b, 255))
        content offset offset (Some content).

(** A pixel, and an image, whose bands fit a byte. *)
Definition byte_pixel (p : pixel) : Prop :=
  byte (band_r p) /\ byte (band_g p) /\ byte (band_b p) /\ byte (band_a p).

Definition byte_image (im : image) : Prop := forall x y, byte_pixel (px im x y).

(** The pixels of the rounded canvas that the mask of step 4 covers: the
    rounded rectangle [[(0, 0), (size, size)]] of line 58, drawn on the
    rounded canvas. *)
Definition in_mask (cover : Z -> Z -> Z -> Z -> Z -> Z -> Z -> bool)
    (g : geometry) (radius x y : Z) : bool :=
  (0 <=? x) && (x <? rounded_icon_size g) && (0 <=? y) && (y <? rounded_icon_size g) &&
  cover 0 0 (rounded_icon_size g) (rounded_icon_size g) radius x y.

(** A pixel with its alpha band set to 255. *)
Definition opaque (p : pixel) : pixel := (band_r p, band_g p, band_b p, 255).

End Canvas.

Module Tool.

Import World.



End Tool.

Module Trace.

Import World.

(** The marks the loop of [main] prints after each size. *)
Definition is_ok (e : event) : bool :=
  match e with
  | EvPrint MsgOk => true
  | _ => false
  end.

Definition is_failed (e : event) : bool :=
  match e with
  | EvPrint MsgFailed => true
  | _ => false
  end.

(** An event that is none of the lines of the loop of [main]: no mark,
    no tally, no announcement of a size. *)
Definition quiet (e : event) : Prop :=
  is_ok e = false /\ is_failed e = false /\ Run.is_tally e = false /\
  Run.announced e = None.

End Trace.

(* ===================================================================== *)
(** ** Concrete worlds *)
(* ===================================================================== *)

Module Fixtures.

Import PyFloat Imaging World Script.

(** A half transparent raster of the requested size. *)
Definition veil (n : Z) : image :=
  {| im_mode := RGBA; width := n; height := n;
     px := fun _ _ => (10, 20, 30, 128) |}.

Definition rsvg_ok : option (option file -> Z -> rsvg_result) :=
  Some (fun _ n => RsvgResult true "" (Some (veil n))).

(** A rasterizer that leaves a file and exits with a nonzero status. *)
Definition rsvg_fails_late : option (option file -> Z -> rsvg_result) :=
  Some (fun _ n => RsvgResult false "error" (Some (veil n))).


(** A scan conversion that covers the bounding box, and no blur. *)
Definition box_cover (x0 y0 x1 y1 radius x y : Z) : bool :=
  (x0 <=? x) && (x <=? x1) && (y0 <=? y) && (y <=? y1).

Definition no_blur (radius : Z) (im : image) : Z -> Z -> pixel := px im.

Definition source : path := ("assets", "gotify.svg").

Definition fs0 : fsys :=
  {| files := {[ source := Blob "<svg/>" ]}; dirs := {[ "/tmp"; "out" ]} |}.

(** No source file. *)
Definition fs_empty : fsys := {| files := ∅; dirs := {[ "/tmp" ]} |}.

Definition brand : Z * Z * Z := (113, 202, 238).

Definition kw_defaults : kwargs :=
  Kwargs None None None None None None None None None.

(** [padding=0.15, scale=1.0], rounded corners on, [corner padding=0]. *)
Definition kw_scenario : kwargs :=
  Kwargs (Some (of_ratio 15 100)) (Some (Fin 1 0)) (Some true) (Some (Fin 0 0))
         None None None None None.

Definition kw_padding_06 : kwargs :=
  Kwargs (Some (of_ratio 6 10)) (Some (Fin 1 0)) (Some true) (Some (Fin 0 0))
         None None None None None.

(** Rounded corners off, shadow on. *)
Definition kw_square_shadow : kwargs :=
  Kwargs None None (Some false) None (Some true) None None None None.

(** Rounded corners off. *)
Definition kw_square : kwargs :=
  Kwargs None None (Some false) None None None None None None.

(** Shadow on, the opacity left out. *)
Definition kw_shadow : kwargs :=
  Kwargs None None None None (Some true) None None None None.

(** Corner padding 0.05 with a shadow. *)
Definition kw_padded_shadow : kwargs :=
  Kwargs None None None (Some (of_ratio 5 100)) (Some true) None None None None.

Definition cli_plain : cli :=
  Cli source None None None None None false false None None None None.

(** [--shadow] without [--shadow-opacity]. *)
Definition cli_shadow : cli :=
  Cli source None None None None None false true None None None None.

(** Rounded corners with a corner padding of 0.6, more than one half. *)
Definition kw_corner_padding_06 : kwargs :=
  Kwargs None None None (Some (of_ratio 6 10)) None None None None None.

(** Corner padding 0.05, no shadow. *)
Definition kw_padded : kwargs :=
  Kwargs None None None (Some (of_ratio 5 100)) None None None None None.

(** [--color red] *)
Definition cli_bad_colour : cli :=
  Cli source None (Some "red") None None None false false None None None None.

End Fixtures.

(* ===================================================================== *)
(** ** The rules of the calculus *)
(* ===================================================================== *)

Import PyFloat Imaging World Script Run.

Lemma wp_bind {A B} (c : M A) (k : A -> M B) fs (Q : post B) :
  wp c fs (fun r fs1 ev1 =>
    match r with
    | inl e => Q (inl e) fs1 ev1
    | inr a => wp (k a) fs1 (fun r' fs2 ev2 => Q r' fs2 (ev1 ++ ev2))
    end) ->
  wp (c ≫= k) fs Q.
Proof.
  unfold wp, mbind, M_bind, bind.
  destruct (c fs) as [[e|a] fs1 ev1]; cbn; [auto|].
  destruct (k a fs1); auto.
Qed.

Lemma wp_ret {A} (a : A) fs (Q : post A) : Q (inr a) fs [] -> wp (mret a) fs Q.
Proof. auto. Qed.

Lemma wp_raise {A} (e : exn) fs (Q : post A) : Q (inl e) fs [] -> wp (raise e) fs Q.
Proof. auto. Qed.

Lemma wp_emit e fs (Q : post unit) : Q (inr tt) fs [e] -> wp (emit e) fs Q.
Proof. auto. Qed.

Lemma wp_get_fs fs (Q : post fsys) : Q (inr fs) fs [] -> wp get_fs fs Q.
Proof. auto. Qed.

Lemma wp_modify_fs f fs (Q : post unit) : Q (inr tt) (f fs) [] -> wp (modify_fs f) fs Q.
Proof. auto. Qed.

Lemma wp_lift_conv {A} (c : conv A) fs (Q : post A) :
  match c with
  | inl e => Q (inl (ConvError e)) fs []
  | inr a => Q (inr a) fs []
  end -> wp (lift_conv c) fs Q.
Proof. destruct c; auto. Qed.

Lemma wp_mono {A} (c : M A) fs (Q Q' : post A) :
  wp c fs Q -> (forall r fs' ev, Q r fs' ev -> Q' r fs' ev) -> wp c fs Q'.
Proof. unfold wp; auto. Qed.

Lemma wp_conj {A} (c : M A) fs (Q Q' : post A) :
  wp c fs Q -> wp c fs Q' -> wp c fs (fun r fs' ev => Q r fs' ev /\ Q' r fs' ev).
Proof. unfold wp; auto. Qed.

Ltac wp_red := cbv beta iota zeta; cbn [app].

Ltac wp_step :=
  lazymatch goal with
  | |- wp (_ ≫= _) _ _ => apply wp_bind
  | |- wp (mret _) _ _ => apply wp_ret; wp_red
  | |- wp (ret _) _ _ => apply wp_ret; wp_red
  | |- wp (raise _) _ _ => apply wp_raise; wp_red
  | |- wp (emit _) _ _ => apply wp_emit; wp_red
  | |- wp (print _) _ _ => apply wp_emit; wp_red
  | |- wp get_fs _ _ => apply wp_get_fs; wp_red
  | |- wp (modify_fs _) _ _ => apply wp_modify_fs; wp_red
  | |- wp (lift_conv ?c) _ _ =>
      apply wp_lift_conv; let E := fresh "Hconv" in destruct c eqn:E; wp_red
  | |- wp (if ?b then _ else _) _ _ =>
      let E := fresh "Hif" in destruct b eqn:E
  | |- wp (match ?x with _ => _ end) _ _ =>
      let E := fresh "Hm" in destruct x eqn:E
  | |- wp (let '(_, _) := ?x in _) _ _ => destruct x
  end.

Section Primitives.
Variable rsvg : option (option file -> Z -> rsvg_result).
Variable cover : Z -> Z -> Z -> Z -> Z -> Z -> Z -> bool.
Variable kernel : Z -> image -> Z -> Z -> pixel.

Lemma wp_image_new v m w h color fs (Q : post image) :
  (w < 0 \/ h < 0 -> Q (inl (BadSize w h)) fs []) ->
  (0 <= w -> 0 <= h -> Q (inr (new m w h color)) fs [EvNew v m w h color]) ->
  wp (image_new v m w h color) fs Q.
Proof.
  intros Hbad Hok. unfold image_new.
  destruct (w <? 0) eqn:Ew; destruct (h <? 0) eqn:Eh; cbn [orb];
    try (apply wp_raise, Hbad; lia).
  repeat wp_step. apply Hok; lia.
Qed.

Lemma wp_image_paste vd dst vs src ox oy (masked : bool) fs (Q : post image) :
  Q (inr (paste dst src ox oy (if masked then Some src else None))) fs
    [EvPaste vd vs ox oy (if masked then Some vs else None)] ->
  wp (image_paste vd dst vs src ox oy masked) fs Q.
Proof. intros H. unfold image_paste. repeat wp_step. exact H. Qed.

Lemma wp_image_putalpha vd im vm mask fs (Q : post image) :
  Q (inr (putalpha im mask)) fs [EvPutAlpha vd vm] ->
  wp (image_putalpha vd im vm mask) fs Q.
Proof. intros H. unfold image_putalpha. repeat wp_step. exact H. Qed.

Lemma wp_draw_rounded_rectangle v im x0 y0 x1 y1 radius fill fs (Q : post image) :
  Q (inr (rounded_rectangle cover im x0 y0 x1 y1 radius fill)) fs
    [EvRoundedRectangle v x0 y0 x1 y1 radius fill] ->
  wp (draw_rounded_rectangle cover v im x0 y0 x1 y1 radius fill) fs Q.
Proof. intros H. unfold draw_rounded_rectangle. repeat wp_step. exact H. Qed.

Lemma wp_image_blur v radius im fs (Q : post image) :
  Q (inr (gaussian_blur kernel radius im)) fs [EvBlur v radius] ->
  wp (image_blur kernel v radius im) fs Q.
Proof. intros H. unfold image_blur. repeat wp_step. exact H. Qed.

Lemma wp_image_open v p fs (Q : post image) :
  (files fs !! p = None -> Q (inl (FileNotFound p)) fs []) ->
  (forall s, files fs !! p = Some (Blob s) -> Q (inl (NotAnImage p)) fs []) ->
  (forall im, files fs !! p = Some (Png im) -> Q (inr (convert_rgba im)) fs [EvOpen v p]) ->
  wp (image_open v p) fs Q.
Proof.
  intros H1 H2 H3. unfold image_open. wp_step. wp_step.
  destruct (files fs !! p) as [[im|s]|] eqn:E; repeat wp_step; eauto.
Qed.

Lemma wp_image_save v im p fs (Q : post unit) :
  (p.1 ∉ dirs fs -> Q (inl (FileNotFound p)) fs []) ->
  (p.1 ∈ dirs fs -> Q (inr tt) (write_file p (Png im) fs) [EvSave v p (width im) (height im)]) ->
  wp (image_save v im p) fs Q.
Proof.
  intros H1 H2. unfold image_save. wp_step. wp_step.
  case_bool_decide; repeat wp_step; eauto.
Qed.

Lemma wp_os_remove p fs (Q : post unit) :
  (files fs !! p = None -> Q (inl (FileNotFound p)) fs []) ->
  (is_Some (files fs !! p) -> Q (inr tt) (remove_file p fs) [EvRemove p]) ->
  wp (os_remove p) fs Q.
Proof.
  intros H1 H2. unfold os_remove. wp_step. wp_step. unfold exists_file.
  case_bool_decide as E; repeat wp_step; eauto.
  apply H1. destruct (files fs !! p) eqn:E'; [exfalso; apply E; eauto|done].
Qed.


Lemma wp_convert_svg_to_png svg out n fs (Q : post bool) :
  (rsvg = None ->
   Q (inr false) fs [EvRsvg svg out n; EvPrint MsgRsvgNotFound; EvPrint MsgInstallHint]) ->
  (forall run, rsvg = Some run ->
     let r := run (files fs !! svg) n in
     let fs' := match produced r with
                | Some im => write_file out (Png im) fs
                | None => fs
                end in
     if exit_ok r then Q (inr true) fs' [EvRsvg svg out n]
     else Q (inr false) fs' [EvRsvg svg out n; EvPrint (MsgConvertFailed (stderr r))]) ->
  wp (convert_svg_to_png rsvg svg out n) fs Q.
Proof.
  intros Hnone Hsome. unfold convert_svg_to_png.
  destruct rsvg as [run|]; [specialize (Hsome run eq_refl); clear Hnone|clear Hsome].
  - cbv zeta in Hsome. repeat wp_step.
    all: rewrite ?Hif in Hsome; try rewrite Hm in Hsome; exact Hsome.
  - repeat wp_step. auto.
Qed.

End Primitives.

Ltac wp_prim :=
  first
    [ wp_step
    | apply wp_image_new; [intros ?|intros ? ?]; wp_red
    | apply wp_image_paste; wp_red
    | apply wp_image_putalpha; wp_red
    | apply wp_draw_rounded_rectangle; wp_red
    | apply wp_image_blur; wp_red
    | apply wp_image_open; [intros ?|intros ? ?|intros ? ?]; wp_red
    | apply wp_image_save; intros ?; wp_red
    | apply wp_os_remove; intros ?; wp_red ].

(* ===================================================================== *)
(** ** Ranges of the float operations *)
(* ===================================================================== *)

Section FloatRanges.

Local Open Scope Z_scope.

Lemma round_shift_bounds a k :
  0 <= a -> 0 < k ->
  a / 2 ^ k <= round_shift a k <= a / 2 ^ k + 1.
Proof.
  intros Ha Hk. unfold round_shift. rewrite Z.shiftr_div_pow2 by lia.
  destruct (_ || _); lia.
Qed.

Lemma round_shift_exact_le a k N :
  0 <= a -> 0 < k -> a <= N * 2 ^ k -> round_shift a k <= N.
Proof.
  intros Ha Hk HN. unfold round_shift.
  rewrite Z.shiftr_div_pow2 by lia. rewrite Z.land_ones by lia.
  assert (Hp : 0 < 2 ^ k) by (apply Z.pow_pos_nonneg; lia).
  assert (Hq : a / 2 ^ k <= N) by (apply Z.div_le_upper_bound; lia).
  destruct (Z.eq_dec (a / 2 ^ k) N) as [Heq|Hne].
  - assert (Hr : a mod 2 ^ k = 0).
    { pose proof (Z.div_mod a (2 ^ k)) as Hdm.
      pose proof (Z.mod_pos_bound a (2 ^ k) Hp). nia. }
    rewrite Hr, Heq.
    assert (Hh : 0 < Z.shiftl 1 (k - 1)).
    { rewrite Z.shiftl_1_l. apply Z.pow_pos_nonneg; lia. }
    destruct (Z.shiftl 1 (k - 1) <? 0) eqn:E1; [apply Z.ltb_lt in E1; lia|].
    destruct (0 =? Z.shiftl 1 (k - 1)) eqn:E2; [apply Z.eqb_eq in E2; lia|].
    cbn. lia.
  - destruct (_ || _); lia.
Qed.

Lemma round_pos_nonneg a e : 0 < a -> 0 <= (round_pos a e).1.
Proof.
  intros Ha. unfold round_pos. cbv zeta.
  destruct (_ <=? e) eqn:E; cbn [fst]; [lia|].
  apply Z.leb_gt in E.
  pose proof (round_shift_bounds a (Z.max (e + Z.log2 a + 1 - prec) emin - e)) as H.
  assert (0 <= a / 2 ^ (Z.max (e + Z.log2 a + 1 - prec) emin - e))
    by (apply Z.div_pos; [lia|apply Z.pow_pos_nonneg; lia]).
  lia.
Qed.

Lemma round_pos_mag a e B :
  0 < a -> Z.log2 a + e < B -> emin <= B ->
  (round_pos a e).1 = 0 \/ Z.log2 (round_pos a e).1 + (round_pos a e).2 < B + 1.
Proof.
  intros Ha Hmag HB. unfold round_pos. cbv zeta.
  set (e' := Z.max (e + Z.log2 a + 1 - prec) emin).
  destruct (e' <=? e) eqn:E; cbn [fst snd]; [right; lia|].
  apply Z.leb_gt in E.
  set (k := e' - e). assert (Hk : 0 < k) by (unfold k; lia).
  pose proof (round_shift_bounds a k ltac:(lia) Hk) as [Hlo Hhi].
  assert (Hp : 0 < 2 ^ k) by (apply Z.pow_pos_nonneg; lia).
  assert (Hq0 : 0 <= a / 2 ^ k) by (apply Z.div_pos; lia).
  destruct (Z.eq_dec (round_shift a k) 0) as [H0|Hn0]; [left; exact H0|right].
  destruct (Z.eq_dec (a / 2 ^ k) 0) as [Hq|Hq].
  - assert (Hone : round_shift a k = 1) by lia.
    rewrite Hone. cbn [Z.log2]. unfold e', prec, emin in *. lia.
  - assert (Hlq : Z.log2 (a / 2 ^ k) = Z.log2 a - k).
    { rewrite <- Z.shiftr_div_pow2 by lia. rewrite Z.log2_shiftr by lia.
      assert (k <= Z.log2 a); [|lia].
      apply Z.log2_le_pow2; [lia|].
      destruct (Z.le_gt_cases (2 ^ k) a) as [Hle|Hgt]; [exact Hle|].
      exfalso. apply Hq. apply Z.div_small. lia. }
    assert (Hl : Z.log2 (round_shift a k) <= Z.log2 (a / 2 ^ k) + 1).
    { etransitivity; [apply Z.log2_le_mono; exact Hhi|].
      replace (a / 2 ^ k + 1) with (Z.succ (a / 2 ^ k)) by lia.
      pose proof (Z.log2_succ_le (a / 2 ^ k)). lia. }
    unfold k in *. lia.
Qed.

Lemma round_pos_at_most_one a e :
  0 < a -> at_most_one (Fin a e) ->
  at_most_one (Fin (round_pos a e).1 (round_pos a e).2).
Proof.
  intros Ha Hone. unfold round_pos. cbv zeta.
  set (e' := Z.max (e + Z.log2 a + 1 - prec) emin).
  destruct (e' <=? e) eqn:E; cbn [fst snd]; [exact Hone|].
  apply Z.leb_gt in E. cbn [at_most_one] in *.
  destruct (0 <=? e) eqn:Ee.
  - apply Z.leb_le in Ee. exfalso.
    assert (Hp : 0 < 2 ^ e) by (apply Z.pow_pos_nonneg; lia).
    assert (a = 1) by nia. subst a. cbn [Z.log2] in e'.
    unfold e', prec, emin in E. lia.
  - apply Z.leb_gt in Ee.
    assert (Hl : Z.log2 a <= - e).
    { destruct (Z.eq_dec a (2 ^ (- e))) as [->|Hne].
      - rewrite Z.log2_pow2 by lia. lia.
      - assert (Z.log2 a < - e); [|lia]. apply Z.log2_lt_pow2; lia. }
    assert (He' : e' < 0) by (unfold e', prec, emin; lia).
    destruct (0 <=? e') eqn:E0; [apply Z.leb_le in E0; lia|].
    apply round_shift_exact_le; [lia|lia|].
    rewrite <- Z.pow_add_r by lia. replace (- e' + (e' - e)) with (- e) by lia.
    exact Hone.
Qed.

Lemma round_dy_range m e B :
  (m = 0 \/ Z.log2 (Z.abs m) + e < B) -> emin <= B -> B < emax ->
  exists m' e',
    round_dy m e = Fin m' e' /\
    (m' = 0 \/ Z.log2 (Z.abs m') + e' < B + 1) /\
    (0 <= m -> 0 <= m') /\
    (at_most_one (Fin m e) -> at_most_one (Fin m' e')).
Proof.
  intros Hmag HB HB'. unfold round_dy.
  destruct (m =? 0) eqn:E0.
  { exists 0, 0. split; [reflexivity|]. split; [left; reflexivity|].
    split; [lia|]. intros _. cbn. lia. }
  apply Z.eqb_neq in E0. destruct Hmag as [|Hmag]; [contradiction|].
  assert (Ha : 0 < Z.abs m) by lia.
  pose proof (round_pos_nonneg (Z.abs m) e Ha) as Hnn.
  pose proof (round_pos_mag (Z.abs m) e B Ha Hmag HB) as Hm.
  pose proof (round_pos_at_most_one (Z.abs m) e Ha) as Ho.
  destruct (round_pos (Z.abs m) e) as [a' e'] eqn:Er. cbn [fst snd] in *.
  assert (Hfin : (emax <=? Z.log2 a' + e') = false).
  { apply Z.leb_gt. destruct Hm as [->|Hm]; [|lia].
    cbn [Z.log2]. unfold round_pos in Er. cbv zeta in Er.
    destruct (_ <=? e) eqn:E; simplify_eq; unfold emax, emin, prec in *; lia. }
  rewrite Hfin. exists (Z.sgn m * a'), e'. split; [reflexivity|].
  split; [|split].
  - destruct Hm as [->|Hm]; [left; lia|right].
    replace (Z.abs (Z.sgn m * a')) with a'; [exact Hm|].
    destruct (Z.lt_trichotomy m 0) as [Hneg|[Hz|Hpos]]; [|lia|].
    + rewrite Z.sgn_neg by lia. lia.
    + rewrite Z.sgn_pos by lia. lia.
  - intros Hpos. assert (Z.sgn m = 1) by (apply Z.sgn_pos; lia). nia.
  - intros Hone. destruct (Z.lt_trichotomy m 0) as [Hneg|[Hz|Hpos]]; [|lia|].
    + assert (Hs : Z.sgn m = -1) by (apply Z.sgn_neg; lia).
      cbn [at_most_one]. rewrite Hs.
      destruct (0 <=? e');
        [assert (0 <= 2 ^ e') by (apply Z.pow_nonneg; lia); nia
        |assert (0 <= 2 ^ (- e')) by (apply Z.pow_nonneg; lia); nia].
    + assert (Hs : Z.sgn m = 1) by (apply Z.sgn_pos; lia).
      rewrite Hs, Z.mul_1_l. apply Ho.
      replace (Z.abs m) with m by lia. exact Hone.
Qed.



Lemma twice_range x B :
  finite_below B x -> emin <= B + 1 -> B + 1 < emax ->
  exists d, int_mul 2 x = inr d /\ finite_below (B + 2) d /\
            (at_most_half x -> at_most_one d).
Proof.
  destruct x as [m e| | |]; cbn [finite_below]; try contradiction.
  intros Hx HB HB'. unfold int_mul.
  change (of_int 2) with (inr (B := float) (A := conv_error) (Fin 2 0)).
  cbn [mbind conv_bind mret conv_ret fmul]. change (0 + e) with e.
  destruct (round_dy_range (2 * m) e (B + 1)) as (m' & e' & -> & Hm & _ & Ho).
  - destruct (Z.eq_dec m 0) as [->|Hm0]; [left; reflexivity|right].
    destruct Hx as [|Hx]; [contradiction|].
    rewrite Z.abs_mul. change (Z.abs 2) with 2.
    rewrite Z.log2_double by lia. lia.
  - exact HB.
  - exact HB'.
  - eexists. split; [reflexivity|]. cbn [finite_below at_most_half].
    split; [|exact Ho]. destruct Hm; [left; assumption|right; lia].
Qed.

Lemma fsub_one_range y B :
  finite_below B y -> 1 <= B -> B + 1 < emax ->
  finite_below (B + 2) (fsub (Fin 1 0) y) /\
  (at_most_one y -> nonneg (fsub (Fin 1 0) y)).
Proof.
  destruct y as [m e| | |]; cbn [finite_below]; try contradiction.
  intros Hy HB HB'. cbn [fsub]. cbv zeta.
  set (e0 := Z.min 0 e).
  set (M := 1 * 2 ^ (0 - e0) - m * 2 ^ (e - e0)).
  assert (HA : 0 < 2 ^ (0 - e0)) by (apply Z.pow_pos_nonneg; unfold e0; lia).
  assert (HP : 0 < 2 ^ (e - e0)) by (apply Z.pow_pos_nonneg; unfold e0; lia).
  destruct (round_dy_range M e0 (B + 1)) as (m' & e' & -> & Hm & Hs & _).
  - destruct (Z.eq_dec M 0) as [|HM]; [left; assumption|right].
    set (A := 2 ^ (0 - e0)) in *. set (P := Z.abs m * 2 ^ (e - e0)).
    assert (HMle : Z.abs M <= 2 * Z.max A P).
    { unfold M, P. rewrite Z.mul_1_l. fold A.
      assert (Z.abs (m * 2 ^ (e - e0)) = Z.abs m * 2 ^ (e - e0))
        by (rewrite Z.abs_mul; f_equal; lia).
      lia. }
    assert (HlA : Z.log2 A + e0 = 0).
    { unfold A. rewrite Z.log2_pow2 by (unfold e0; lia). lia. }
    assert (HlP : m <> 0 -> Z.log2 P + e0 < B).
    { intros Hm0. destruct Hy as [|Hy]; [contradiction|]. unfold P.
      rewrite Z.log2_mul_pow2 by (unfold e0; lia). lia. }
    assert (Hmax : Z.log2 (Z.max A P) + e0 < B).
    { destruct (Z.max_spec A P) as [[Hlt ->]|[_ ->]]; [|lia].
      apply HlP. intros ->. unfold P in Hlt. cbn in Hlt. lia. }
    assert (Z.log2 (Z.abs M) <= Z.log2 (2 * Z.max A P)) by (apply Z.log2_le_mono; exact HMle).
    rewrite Z.log2_double in H by lia.
    clearbody M A P e0. lia.
  - unfold emin. lia.
  - exact HB'.
  - cbn [finite_below nonneg]. split; [destruct Hm; [left; assumption|right; lia]|].
    intros Hone. apply Hs. unfold M. cbn [at_most_one] in Hone.
    destruct (0 <=? e) eqn:Ee.
    + apply Z.leb_le in Ee. replace e0 with 0 by (unfold e0; lia).
      replace (0 - 0) with 0 by lia. replace (e - 0) with e by lia.
      change (2 ^ 0) with 1. lia.
    + apply Z.leb_gt in Ee. replace e0 with e by (unfold e0; lia).
      replace (e - e) with 0 by lia. replace (0 - e) with (- e) by lia.
      change (2 ^ 0) with 1. lia.
Qed.

Lemma one_minus_twice_range x B :
  finite_below B x -> 1 <= B -> B + 3 < emax ->
  exists y, one_minus_twice x = inr y /\ finite_below (B + 4) y /\
            (at_most_half x -> nonneg y).
Proof.
  intros Hx HB HB'. unfold one_minus_twice.
  destruct (twice_range x B Hx) as (d & -> & Hd & Ho); [unfold emin; lia|lia|].
  cbn [mbind conv_bind]. unfold int_sub.
  change (of_int 1) with (inr (B := float) (A := conv_error) (Fin 1 0)).
  cbn [mbind conv_bind mret conv_ret].
  destruct (fsub_one_range d (B + 2) Hd) as [Hf Hs]; [lia|lia|].
  eexists. split; [reflexivity|].
  replace (B + 4) with (B + 2 + 2) by lia. split; [exact Hf|]. auto.
Qed.


End FloatRanges.

(* ===================================================================== *)
(** ** Properties of generate_icon *)
(* ===================================================================== *)

Ltac in_cases H :=
  repeat match type of H with
  | In _ (_ :: _) => destruct H as [H|H]; [try discriminate|]
  | In _ (_ ++ _) => apply in_app_iff in H as [H|H]
  | In _ [] => destruct H
  end.

Section Properties.

Variable rsvg : option (option file -> Z -> rsvg_result).
Variable cover : Z -> Z -> Z -> Z -> Z -> Z -> Z -> bool.
Variable kernel : Z -> image -> Z -> Z -> pixel.

Lemma derive_geometry_unrounded size kw g :
  derive_geometry size kw = inr g ->
  add_rounded_corners kw && gt0 (corner_padding_ratio kw) = false ->
  rounded_icon_size g = size /\ rounded_icon_offset g = 0.
Proof.
  unfold derive_geometry. intros H Hc. rewrite Hc in H.
  unfold mbind, mret, conv_bind, conv_ret in H.
  repeat case_match; simplify_eq; auto.
Qed.

Lemma width_convert_rgba im : width (convert_rgba im) = width im.
Proof. unfold convert_rgba. destruct (im_mode im); reflexivity. Qed.

Lemma height_convert_rgba im : height (convert_rgba im) = height im.
Proof. unfold convert_rgba. destruct (im_mode im); reflexivity. Qed.

(** Whatever [round_and_composite] returns is [size] by [size]; it emits
    events of steps 4 and 5 only and leaves the file system alone. *)
Lemma wp_round_and_composite_dims size g kw icon fs :
  width icon = rounded_icon_size g -> height icon = rounded_icon_size g ->
  (add_rounded_corners kw && gt0 (corner_padding_ratio kw) = false ->
   rounded_icon_size g = size) ->
  wp (round_and_composite cover kernel size g kw icon) fs (fun r fs' ev =>
    fs' = fs /\ Forall (fun e => composite_event e = true) ev /\
    forall v im, r = inr (v, im) -> width im = size /\ height im = size).
Proof.
  intros Hw Hh Hsz.
  unfold round_and_composite, add_shadow_layer, create_rounded_rectangle_mask.
  repeat wp_prim.
  all: split; [reflexivity|split; [repeat constructor|]].
  all: intros v' im' Heq; simplify_eq; cbn [width height paste putalpha new]; auto.
  - apply orb_false_iff in Hif0 as [Hg _]. rewrite Hg in Hsz.
    split; apply Hsz; reflexivity.
  - rewrite Hw, Hh. split; apply Hsz; reflexivity.
Qed.

Lemma wp_generate_icon_dims svg out size bg kw fs :
  wp (generate_icon rsvg cover kernel svg out size bg kw) fs (fun r fs' ev =>
    (forall v p w h, In (EvSave v p w h) ev -> p = out /\ w = size /\ h = size) /\
    (r = inr true ->
       (exists v, In (EvSave v out size size) ev) /\
       (out <> temp_path size ->
        exists im, files fs' !! out = Some (Png im) /\
                   width im = size /\ height im = size))).
Proof.
  unfold generate_icon.
  wp_step. wp_step; [split; [intros ? ? ? ? []|discriminate]|].
  wp_step. apply wp_convert_svg_to_png.
  - intros _. wp_red. cbn [negb]. wp_step. split; [|discriminate].
    intros ? ? ? ? HIn. cbn in HIn. intuition discriminate.
  - intros run _. cbv zeta.
    destruct (exit_ok _); wp_red; cbn [negb].
    2:{ wp_step. split; [|discriminate].
        intros ? ? ? ? HIn. cbn in HIn. intuition discriminate. }
    destruct bg as [[r0 g0] b0].
    repeat wp_prim.
    all: try (split; [intros ? ? ? ? HIn; cbn in HIn; intuition discriminate|discriminate]).
    all: eapply wp_mono;
      [apply wp_round_and_composite_dims; cbn [width height paste new]; auto;
       intros Hc; eapply derive_geometry_unrounded; eauto|].
    all: cbv beta; intros r fs1 ev (-> & Hns & Hdim).
    all: destruct r as [e|[v icon]]; wp_red.
    all: try (split; [|discriminate]; intros ? ? ? ? HIn; cbn in HIn;
              destruct HIn as [|[|[|[|HIn]]]]; try discriminate;
              rewrite Forall_forall in Hns; apply list_elem_of_In, Hns in HIn; discriminate).
    all: destruct (Hdim v icon eq_refl) as [Hw Hh].
    all: repeat wp_prim.
    all: split;
      [intros v0 p w h HIn; in_cases HIn;
       [rewrite Forall_forall in Hns; apply list_elem_of_In, Hns in HIn; discriminate|..];
       simplify_eq; auto
      |try discriminate].
    intros _. split.
    + exists v. do 4 right. apply in_app_iff. right. left. congruence.
    + intros Hne. exists icon. split; [|auto].
      unfold remove_file, write_file. cbn [files].
      rewrite lookup_delete_ne by congruence. apply lookup_insert_eq.
Qed.

(** C1. Whatever the size [S] and the style (rounded corners or not, any
    corner padding, shadow or not), every image [generate_icon] saves is
    saved at the requested path and is [S] by [S]; a call that returns
    [True] has saved one, and, the output path not being the transient
    path of the call, the file it leaves there is an [S] by [S] image. *)
Theorem generate_icon_saves_size_by_size svg out size bg kw fs :
  let o := generate_icon rsvg cover kernel svg out size bg kw fs in
  (forall v p w h, In (EvSave v p w h) (emitted o) ->
     p = out /\ w = size /\ h = size) /\
  (result o = inr true ->
     (exists v, In (EvSave v out size size) (emitted o)) /\
     (out <> temp_path size ->
      exists im, files (final o) !! out = Some (Png im) /\
                 width im = size /\ height im = size)).
Proof. exact (wp_generate_icon_dims svg out size bg kw fs). Qed.

(** *** main without its source *)


(** *** The geometry and the rasterizer request *)

Lemma trunc_floor_nonneg m e : 0 <= m -> trunc m e = floor m e.
Proof.
  intros Hm. unfold trunc, floor. destruct (0 <=? e) eqn:He; [reflexivity|].
  apply Z.leb_gt in He.
  apply Z.quot_div_nonneg; [exact Hm|]. apply Z.pow_pos_nonneg; lia.
Qed.

Lemma int_times_truncated n x z :
  int_times n x = inr z <-> truncated_product n x z.
Proof.
  unfold int_times, truncated_product, mbind, conv_bind.
  destruct (int_mul n x) as [err|[m e| | |]]; cbn; split.
  all: try discriminate.
  all: try (intros (m0 & e0 & H & _); discriminate).
  - intros [= <-]. eauto.
  - intros (m0 & e0 & [= <- <-] & ->). reflexivity.
Qed.

(** The geometry of the script, read off [derive_geometry]: every product
    is truncated. *)
Lemma derive_geometry_truncates size kw g :
  derive_geometry size kw = inr g ->
  (if add_rounded_corners kw && gt0 (corner_padding_ratio kw) then
     exists x, one_minus_twice (corner_padding_ratio kw) = inr x /\
       truncated_product size x (rounded_icon_size g) /\
       truncated_product size (corner_padding_ratio kw) (rounded_icon_offset g)
   else rounded_icon_size g = size /\ rounded_icon_offset g = 0) /\
  (exists x, one_minus_twice (padding_ratio kw) = inr x /\
     truncated_product (rounded_icon_size g) x (content_size g) /\
     truncated_product (content_size g) (scale_ratio kw) (scaled_content_size g)).
Proof.
  unfold derive_geometry. intros H.
  destruct (add_rounded_corners kw && gt0 (corner_padding_ratio kw));
    cbv beta iota delta [mbind conv_bind mret conv_ret] in H.
  - destruct (one_minus_twice (corner_padding_ratio kw)) as [|x] eqn:E1; [discriminate|].
    destruct (int_times size x) as [|a] eqn:E2; [discriminate|].
    destruct (int_times size (corner_padding_ratio kw)) as [|b] eqn:E3; [discriminate|].
    destruct (one_minus_twice (padding_ratio kw)) as [|y] eqn:E4; [discriminate|].
    destruct (int_times a y) as [|cs] eqn:E5; [discriminate|].
    destruct (int_times cs (scale_ratio kw)) as [|sc] eqn:E6; [discriminate|].
    simplify_eq. cbn.
    split; [exists x|exists y];
      (split; [reflexivity|split; apply int_times_truncated; assumption]).
  - destruct (one_minus_twice (padding_ratio kw)) as [|y] eqn:E4; [discriminate|].
    destruct (int_times size y) as [|cs] eqn:E5; [discriminate|].
    destruct (int_times cs (scale_ratio kw)) as [|sc] eqn:E6; [discriminate|].
    simplify_eq. cbn.
    split; [auto|exists y].
    split; [reflexivity|split; apply int_times_truncated; assumption].
Qed.

Lemma wp_generate_icon_request svg out size bg kw fs :
  wp (generate_icon rsvg cover kernel svg out size bg kw) fs (fun r fs' ev =>
    match derive_geometry size kw with
    | inl e => r = inl (ConvError e) /\ ev = []
    | inr g =>
        let offset := (rounded_icon_size g - scaled_content_size g) / 2 in
        (exists rest,
           ev = EvRsvg svg (temp_path size) (scaled_content_size g) :: rest /\
           Forall (fun e => is_rsvg e = false) rest) /\
        (forall ox oy m, In (EvPaste VIcon VContent ox oy m) ev ->
           ox = offset /\ oy = offset /\ m = Some VContent) /\
        (r = inr true ->
           In (EvPaste VIcon VContent offset offset (Some VContent)) ev)
    end).
Proof.
  unfold generate_icon.
  wp_step. wp_step; [auto|].
  wp_step. apply wp_convert_svg_to_png.
  - intros _. wp_red. cbn [negb]. wp_step.
    split; [eexists; split; [reflexivity|repeat constructor]|].
    split; [|discriminate]. intros ? ? ? HIn. in_cases HIn.
  - intros run _. cbv zeta.
    destruct (exit_ok _); wp_red; cbn [negb].
    2:{ wp_step. split; [eexists; split; [reflexivity|repeat constructor]|].
        split; [|discriminate]. intros ? ? ? HIn. in_cases HIn. }
    destruct bg as [[r0 g0] b0].
    repeat wp_prim.
    all: try (split; [eexists; split; [reflexivity|repeat constructor]|];
              split; [|discriminate]; intros ? ? ? HIn; in_cases HIn).
    all: eapply wp_mono;
      [apply wp_round_and_composite_dims; cbn [width height paste new]; auto;
       intros Hc; eapply derive_geometry_unrounded; eauto|].
    all: cbv beta; intros r fs1 ev (-> & Hev & _).
    all: assert (Hrs : Forall (fun e => is_rsvg e = false) ev)
      by (eapply Forall_impl; [exact Hev|]; intros []; try discriminate; reflexivity).
    all: assert (Hnp : forall ox oy m, ~ In (EvPaste VIcon VContent ox oy m) ev)
      by (intros ? ? ? HIn; rewrite Forall_forall in Hev;
          apply list_elem_of_In, Hev in HIn; discriminate).
    all: destruct r as [e|[v icon]]; wp_red; repeat wp_prim.
    all: (split; [eexists; split; [reflexivity|];
                  repeat (apply Forall_cons; split; [reflexivity|]);
                  first [exact Hrs|apply Forall_app_2; [exact Hrs|repeat constructor]]|]).
    all: (split; [intros ? ? ? HIn; in_cases HIn;
                  [simplify_eq; auto|exfalso; eapply Hnp; eauto]|]).
    all: try discriminate.
    intros _. do 3 right. left. reflexivity.
Qed.

(** C2 (as amended). For every size, style and world: the sizes of step 1
    are truncations toward zero of the double-precision products (the
    rounded size and offset when rounded corners come with a positive
    corner padding, the size itself and 0 otherwise; then the content
    size and the scaled content size); the first event of the call is the
    rasterizer run at the scaled content size and there is no other; the
    content is pasted, with itself as mask, at the floor of half the
    difference on both axes. A truncation is the floor whenever the
    product is not negative. For [S = 512], padding 0.15, scale 1.0,
    rounded corners and no corner padding the request is 358 pixels and
    the offset 77. *)
Theorem rasterizer_request_by_truncation :
  (forall svg out size bg kw fs,
     let o := generate_icon rsvg cover kernel svg out size bg kw fs in
     match derive_geometry size kw with
     | inl e => result o = inl (ConvError e) /\ emitted o = []
     | inr g =>
         let offset := (rounded_icon_size g - scaled_content_size g) / 2 in
         (if add_rounded_corners kw && gt0 (corner_padding_ratio kw) then
            exists x, one_minus_twice (corner_padding_ratio kw) = inr x /\
              truncated_product size x (rounded_icon_size g) /\
              truncated_product size (corner_padding_ratio kw) (rounded_icon_offset g)
          else rounded_icon_size g = size /\ rounded_icon_offset g = 0) /\
         (exists x, one_minus_twice (padding_ratio kw) = inr x /\
            truncated_product (rounded_icon_size g) x (content_size g) /\
            truncated_product (content_size g) (scale_ratio kw) (scaled_content_size g)) /\
         (exists rest,
            emitted o = EvRsvg svg (temp_path size) (scaled_content_size g) :: rest /\
            Forall (fun e => is_rsvg e = false) rest) /\
         (forall ox oy m, In (EvPaste VIcon VContent ox oy m) (emitted o) ->
            ox = offset /\ oy = offset /\ m = Some VContent) /\
         (result o = inr true ->
            In (EvPaste VIcon VContent offset offset (Some VContent)) (emitted o))
     end) /\
  (forall m e, 0 <= m -> trunc m e = floor m e) /\
  (forall svg out bg fs,
     let o := generate_icon rsvg cover kernel svg out 512 bg Fixtures.kw_scenario fs in
     (exists rest, emitted o = EvRsvg svg (temp_path 512) 358 :: rest) /\
     (forall ox oy m, In (EvPaste VIcon VContent ox oy m) (emitted o) ->
        ox = 77 /\ oy = 77)).
Proof.
  split; [|split; [exact trunc_floor_nonneg|]].
  - intros svg out size bg kw fs. cbv zeta.
    pose proof (wp_generate_icon_request svg out size bg kw fs) as H.
    unfold wp in H.
    destruct (derive_geometry size kw) as [e|g] eqn:Eg; [exact H|].
    destruct (derive_geometry_truncates size kw g Eg) as [H1 H2].
    split; [exact H1|]. split; [exact H2|]. exact H.
  - intros svg out bg fs. cbv zeta.
    pose proof (wp_generate_icon_request svg out 512 bg Fixtures.kw_scenario fs) as H.
    unfold wp in H.
    assert (Eg : derive_geometry 512 Fixtures.kw_scenario = inr (Geometry 512 0 358 358))
      by (vm_compute; reflexivity).
    rewrite Eg in H. cbn [rounded_icon_size scaled_content_size] in H.
    destruct H as ((rest & Hev & _) & Hp & _). split; [eauto|].
    intros ox oy m HIn. destruct (Hp ox oy m HIn) as (-> & -> & _).
    split; reflexivity.
Qed.

(** *** Steps 4 and 5 *)

Ltac not_final :=
  repeat (apply Forall_cons; split; [reflexivity|]); apply Forall_nil_2.

(** The trace of a complete pass through [round_and_composite]. *)
Lemma wp_round_and_composite_trace size g kw icon fs :
  wp (round_and_composite cover kernel size g kw icon) fs (fun r fs' ev =>
    forall v im, r = inr (v, im) ->
      if add_rounded_corners kw && (gt0 (corner_padding_ratio kw) || add_shadow kw) then
        v = VFinalOutput /\
        exists pre mid,
          ev = pre ++ EvNew VFinalOutput RGBA size size transparent :: mid ++
                 [EvPaste VFinalOutput VRoundedOutput
                    (rounded_icon_offset g) (rounded_icon_offset g)
                    (Some VRoundedOutput)] /\
          Forall (fun e => on_final e = false) pre /\
          (if add_shadow kw then
             exists sh, mid = sh ++ [EvPaste VFinalOutput VShadow 0 0 (Some VShadow)] /\
                        Forall (fun e => on_final e = false) sh
           else mid = [])
      else v <> VFinalOutput /\ Forall (fun e => on_final e = false) ev).
Proof.
  unfold round_and_composite, add_shadow_layer, create_rounded_rectangle_mask.
  repeat wp_prim.
  all: intros v' im' Heq; try discriminate; simplify_eq.
  all: cbn [andb orb]; rewrite ?Hif0; cbn [andb orb].
  all: try (split; [discriminate|not_final]).
  all: split; [reflexivity|].
  - eexists [_; _; _; _; _], ([_; _; _] ++ [_]). cbn [app].
    split; [reflexivity|]. split; [not_final|].
    eexists [_; _; _]. split; [reflexivity|not_final].
  - eexists [_; _; _; _; _], ([_; _] ++ [_]). cbn [app].
    split; [reflexivity|]. split; [not_final|].
    eexists [_; _]. split; [reflexivity|not_final].
  - eexists [_; _; _; _; _], []. cbn [app].
    split; [reflexivity|]. split; [not_final|reflexivity].
Qed.

Lemma wp_generate_icon_composite svg out size bg kw fs :
  wp (generate_icon rsvg cover kernel svg out size bg kw) fs (fun r fs' ev =>
    r = inr true ->
    exists g, derive_geometry size kw = inr g /\
    if add_rounded_corners kw && (gt0 (corner_padding_ratio kw) || add_shadow kw) then
      exists pre mid,
        ev = pre ++ EvNew VFinalOutput RGBA size size transparent :: mid ++
               [EvPaste VFinalOutput VRoundedOutput
                  (rounded_icon_offset g) (rounded_icon_offset g)
                  (Some VRoundedOutput);
                EvSave VFinalOutput out size size;
                EvRemove (temp_path size)] /\
        Forall (fun e => on_final e = false) pre /\
        (if add_shadow kw then
           exists sh, mid = sh ++ [EvPaste VFinalOutput VShadow 0 0 (Some VShadow)] /\
                      Forall (fun e => on_final e = false) sh
         else mid = [])
    else Forall (fun e => on_final e = false) ev).
Proof.
  unfold generate_icon.
  wp_step. wp_step; [discriminate|].
  wp_step. apply wp_convert_svg_to_png.
  - intros _. wp_red. cbn [negb]. wp_step. discriminate.
  - intros run _. cbv zeta.
    destruct (exit_ok _); wp_red; cbn [negb]; [|wp_step; discriminate].
    destruct bg as [[r0 g0] b0].
    repeat wp_prim; try discriminate.
    all: eapply wp_mono;
      [apply wp_conj;
       [apply wp_round_and_composite_dims; cbn [width height paste new]; auto;
        intros Hc; eapply derive_geometry_unrounded; eauto
       |apply wp_round_and_composite_trace]|].
    all: cbv beta; intros r fs1 ev ((-> & _ & Hdim) & Htr).
    all: destruct r as [e|[v icon]]; wp_red; [discriminate|].
    all: destruct (Hdim v icon eq_refl) as [Hw Hh]; specialize (Htr v icon eq_refl).
    all: repeat wp_prim; try discriminate.
    intros _. exists g. split; [reflexivity|].
    destruct (add_rounded_corners kw && _).
    + destruct Htr as (-> & pre & mid & -> & Hpre & Hmid).
      exists ([EvRsvg svg (temp_path size) (scaled_content_size g);
               EvNew VIcon RGBA (rounded_icon_size g) (rounded_icon_size g) (r0, g0, b0, 255);
               EvOpen VContent (temp_path size);
               EvPaste VIcon VContent
                 ((rounded_icon_size g - scaled_content_size g) / 2)
                 ((rounded_icon_size g - scaled_content_size g) / 2)
                 (Some VContent)] ++ pre), mid.
      rewrite Hw, Hh. split.
      * cbn [app]. do 4 f_equal.
        rewrite <- app_assoc. cbn [app]. do 2 f_equal.
        rewrite <- app_assoc. reflexivity.
      * split; [|exact Hmid]. apply Forall_app_2; [not_final|exact Hpre].
    + destruct Htr as [Hv Hev].
      repeat (apply Forall_cons; split; [reflexivity|]).
      apply Forall_app_2; [exact Hev|].
      apply Forall_cons; split; [destruct v; try reflexivity; contradiction|].
      not_final.
Qed.

(** C3 (as amended). In a call that returns [True], the canvas of step 5
    is allocated, fully transparent and [size] by [size], exactly when
    rounded corners are on and the corner padding is positive or the
    shadow is on. Then the shadow layer, when there is one, is pasted on
    it first, the rounded icon is pasted at (roundedOffset,
    roundedOffset) last, and it is that canvas that is saved. Otherwise
    (rounded corners off, even with the shadow on) no event acts on such
    a canvas. *)
Theorem composite_exactly_when_rounded svg out size bg kw fs :
  let o := generate_icon rsvg cover kernel svg out size bg kw fs in
  result o = inr true ->
  exists g, derive_geometry size kw = inr g /\
  if add_rounded_corners kw && (gt0 (corner_padding_ratio kw) || add_shadow kw) then
    exists pre mid,
      emitted o = pre ++ EvNew VFinalOutput RGBA size size transparent :: mid ++
             [EvPaste VFinalOutput VRoundedOutput
                (rounded_icon_offset g) (rounded_icon_offset g)
                (Some VRoundedOutput);
              EvSave VFinalOutput out size size;
              EvRemove (temp_path size)] /\
      Forall (fun e => on_final e = false) pre /\
      (if add_shadow kw then
         exists sh, mid = sh ++ [EvPaste VFinalOutput VShadow 0 0 (Some VShadow)] /\
                    Forall (fun e => on_final e = false) sh
       else mid = [])
  else Forall (fun e => on_final e = false) (emitted o).
Proof. exact (wp_generate_icon_composite svg out size bg kw fs). Qed.

(** *** The rounded rectangles *)

Lemma wp_round_and_composite_rectangles size g kw icon fs :
  wp (round_and_composite cover kernel size g kw icon) fs (fun r fs' ev =>
    Forall (rectangle_drawn size g kw) ev).
Proof.
  unfold round_and_composite, add_shadow_layer, create_rounded_rectangle_mask.
  repeat wp_prim.
  all: repeat (apply Forall_cons; split; [|]); try apply Forall_nil_2.
  all: try exact I.
  all: cbn [rectangle_drawn]; simplify_eq.
  all: split; [apply int_times_truncated; assumption|].
  all: try (split; reflexivity).
  all: eexists _, _, _.
  all: repeat (split; [apply int_times_truncated; eassumption|]).
  all: repeat split.
Qed.

Lemma wp_generate_icon_rectangles svg out size bg kw fs :
  wp (generate_icon rsvg cover kernel svg out size bg kw) fs (fun r fs' ev =>
    match derive_geometry size kw with
    | inl _ => ev = []
    | inr g => Forall (rectangle_drawn size g kw) ev
    end).
Proof.
  unfold generate_icon.
  wp_step. wp_step; [reflexivity|].
  wp_step. apply wp_convert_svg_to_png.
  - intros _. wp_red. cbn [negb]. wp_step. repeat constructor.
  - intros run _. cbv zeta.
    destruct (exit_ok _); wp_red; cbn [negb]; [|wp_step; repeat constructor].
    destruct bg as [[r0 g0] b0].
    repeat wp_prim; try (repeat constructor; fail).
    all: eapply wp_mono; [apply wp_round_and_composite_rectangles|].
    all: cbv beta; intros r fs1 ev Hev.
    all: destruct r as [e|[v icon]]; wp_red; repeat wp_prim.
    all: repeat (apply Forall_cons; split; [exact I|]).
    all: first [exact Hev|apply Forall_app_2; [exact Hev|repeat constructor]].
Qed.

(** C5 (as amended). Every rounded rectangle [generate_icon] draws, the
    mask of step 4 and the shadow of step 5, has for corner radius the
    truncation toward zero of the double [roundedSize * 0.2237]: for a
    rounded size of 512 the radius is 114, the truncation of 114.5344. *)
Theorem corner_radius_by_truncation :
  (forall svg out size bg kw fs on x0 y0 x1 y1 radius fill,
     In (EvRoundedRectangle on x0 y0 x1 y1 radius fill)
        (emitted (generate_icon rsvg cover kernel svg out size bg kw fs)) ->
     exists g, derive_geometry size kw = inr g /\
       (on = VMask \/ on = VShadow) /\
       truncated_product (rounded_icon_size g) default_radius_ratio radius) /\
  default_radius_ratio = of_ratio 2237 10000 /\
  (forall radius, truncated_product 512 default_radius_ratio radius <-> radius = 114).
Proof.
  split; [|split; [reflexivity|]].
  - intros svg out size bg kw fs on x0 y0 x1 y1 radius fill HIn.
    pose proof (wp_generate_icon_rectangles svg out size bg kw fs) as H.
    unfold wp in H.
    destruct (derive_geometry size kw) as [e|g]; [rewrite H in HIn; destruct HIn|].
    exists g. split; [reflexivity|].
    rewrite Forall_forall in H. apply list_elem_of_In, H in HIn.
    cbn [rectangle_drawn] in HIn. destruct HIn as [Hr Hon].
    split; [|exact Hr]. destruct on; auto; contradiction.
  - intros radius. rewrite <- int_times_truncated.
    assert (E : int_times 512 default_radius_ratio = inr 114) by (vm_compute; reflexivity).
    rewrite E. split; [intros [= <-]; reflexivity|intros ->; reflexivity].
Qed.

(** The shadow rectangle is filled with black at the truncation of
    [255 * shadow_opacity], the opacity being the argument of the call or
    the default of the signature. *)
Lemma shadow_fill_follows_opacity svg out size bg kw fs x0 y0 x1 y1 radius fill :
  In (EvRoundedRectangle VShadow x0 y0 x1 y1 radius fill)
     (emitted (generate_icon rsvg cover kernel svg out size bg kw fs)) ->
  exists alpha, truncated_product 255 (shadow_opacity kw) alpha /\
                fill = (0, 0, 0, alpha).
Proof.
  intros HIn.
  pose proof (wp_generate_icon_rectangles svg out size bg kw fs) as H.
  unfold wp in H.
  destruct (derive_geometry size kw) as [e|g]; [rewrite H in HIn; destruct HIn|].
  rewrite Forall_forall in H. apply list_elem_of_In, H in HIn.
  cbn [rectangle_drawn] in HIn.
  destruct HIn as (_ & sx & sy & alpha & _ & _ & Ha & _ & _ & _ & _ & Hf).
  eauto.
Qed.

(** *** The transient file *)


(** A rasterizer that wrote its output and then exited with a nonzero
    status leaves that output behind: the call returns [False] at once. *)
Lemma temp_file_left_by_failed_rasterizer svg out size bg kw fs run g im :
  rsvg = Some run ->
  derive_geometry size kw = inr g ->
  exit_ok (run (files fs !! svg) (scaled_content_size g)) = false ->
  produced (run (files fs !! svg) (scaled_content_size g)) = Some im ->
  let o := generate_icon rsvg cover kernel svg out size bg kw fs in
  result o = inr false /\ files (final o) !! temp_path size = Some (Png im).
Proof.
  intros Hr Hg Hx Hp.
  change (wp (generate_icon rsvg cover kernel svg out size bg kw) fs (fun r fs' ev =>
    r = inr false /\ files fs' !! temp_path size = Some (Png im))).
  unfold generate_icon. wp_step. rewrite Hg. apply wp_lift_conv.
  wp_red. wp_step. apply wp_convert_svg_to_png; [rewrite Hr; discriminate|].
  intros run' Hr'. rewrite Hr in Hr'. injection Hr' as <-. cbv zeta.
  rewrite Hx, Hp. wp_red. cbn [negb]. wp_step.
  split; [reflexivity|]. apply lookup_insert_eq.
Qed.

(** *** The alpha band without rounded corners *)

Lemma round_and_composite_square size g kw icon fs :
  add_rounded_corners kw = false ->
  round_and_composite cover kernel size g kw icon fs = Outcome (inr (VIcon, icon)) fs [].
Proof. intros H. unfold round_and_composite. rewrite H. reflexivity. Qed.

Lemma wp_round_and_composite_square size g kw icon fs (Q : post (var * image)) :
  add_rounded_corners kw = false ->
  Q (inr (VIcon, icon)) fs [] ->
  wp (round_and_composite cover kernel size g kw icon) fs Q.
Proof.
  intros H HQ. unfold wp. rewrite round_and_composite_square by exact H. exact HQ.
Qed.

Lemma im_mode_convert_rgba im : im_mode (convert_rgba im) = RGBA.
Proof. unfold convert_rgba. destruct (im_mode im) eqn:E; [reflexivity|exact E]. Qed.

Lemma band_a_paste_self dst src ox oy x y :
  im_mode src = RGBA ->
  band_a (px (paste dst src ox oy (Some src)) x y) =
    if inside src (x - ox) (y - oy)
    then blend (band_a (px src (x - ox) (y - oy))) (band_a (px dst x y))
               (band_a (px src (x - ox) (y - oy)))
    else band_a (px dst x y).
Proof.
  intros Hm. cbn [px paste].
  destruct (inside src (x - ox) (y - oy)); [|reflexivity].
  unfold blend_pixel, mask_value. rewrite Hm. reflexivity.
Qed.

(** The alpha of a fully opaque pixel after a pixel of alpha [a] is
    pasted over it with its own alpha as mask. *)
Lemma blend_self_alpha a :
  0 <= a <= 255 ->
  191 <= blend a 255 a <= 255 /\ (blend a 255 a = 255 <-> a = 0 \/ a = 255).
Proof.
  intros Ha.
  set (check := fun n : nat =>
    let a := Z.of_nat n in
    (191 <=? blend a 255 a) && (blend a 255 a <=? 255) &&
    Bool.eqb (blend a 255 a =? 255) ((a =? 0) || (a =? 255))).
  assert (Hall : forallb check (seq 0 256) = true) by (vm_compute; reflexivity).
  rewrite forallb_forall in Hall.
  specialize (Hall (Z.to_nat a)).
  assert (HIn : In (Z.to_nat a) (seq 0 256)) by (apply in_seq; lia).
  specialize (Hall HIn). unfold check in Hall. cbv zeta in Hall.
  rewrite Z2Nat.id in Hall by lia.
  apply andb_prop in Hall as [Hall Heq]. apply andb_prop in Hall as [Hlo Hhi].
  apply Z.leb_le in Hlo, Hhi. apply Bool.eqb_prop in Heq.
  split; [lia|]. split.
  - intros H255. apply Z.eqb_eq in H255. rewrite H255 in Heq. symmetry in Heq.
    apply orb_prop in Heq as [H|H]; apply Z.eqb_eq in H; auto.
  - intros H0. apply Z.eqb_eq. rewrite Heq.
    destruct H0 as [->| ->]; reflexivity.
Qed.

Lemma wp_generate_icon_square svg out size bg kw fs run g c :
  add_rounded_corners kw = false ->
  rsvg = Some run ->
  derive_geometry size kw = inr g ->
  produced (run (files fs !! svg) (scaled_content_size g)) = Some c ->
  out <> temp_path size ->
  wp (generate_icon rsvg cover kernel svg out size bg kw) fs (fun r fs' ev =>
    r = inr true ->
    let off := (rounded_icon_size g - scaled_content_size g) / 2 in
    files fs' !! out =
      Some (Png (paste (new RGBA (rounded_icon_size g) (rounded_icon_size g)
                          (bg.1.1, bg.1.2, bg.2, 255))
                       (convert_rgba c) off off (Some (convert_rgba c))))).
Proof.
  intros Hsq Hr Hg Hp Hne.
  unfold generate_icon. wp_step. rewrite Hg. apply wp_lift_conv. wp_red.
  wp_step. apply wp_convert_svg_to_png; [rewrite Hr; discriminate|].
  intros run' Hr'. rewrite Hr in Hr'. injection Hr' as <-. cbv zeta.
  rewrite Hp.
  destruct (exit_ok _); wp_red; cbn [negb]; [|wp_step; discriminate].
  destruct bg as [[r0 g0] b0].
  repeat wp_prim; try discriminate.
  all: match goal with
       | H : files (write_file _ _ _) !! _ = _ |- _ =>
           unfold write_file in H; cbn [files] in H;
           rewrite lookup_insert_eq in H; simplify_eq
       end.
  apply wp_round_and_composite_square; [exact Hsq|]. wp_red.
  repeat wp_prim; try discriminate.
  intros _. cbn [fst snd].
  unfold remove_file, write_file. cbn [files].
  rewrite lookup_delete_ne by congruence. apply lookup_insert_eq.
Qed.

(** C10 (as amended). With rounded corners off, in a call that returns
    [True] on the raster [c] of the rasterizer, the saved image has alpha
    255 at every pixel the pasted content does not cover, and at a pixel
    covered by a content pixel of alpha [a] its alpha is the toolkit's
    blend of 255 and [a] under the mask [a]: that is 255 exactly when [a]
    is 0 or 255, and at least 191 otherwise. *)
Theorem square_icon_alpha_is_blended svg out size bg kw fs run g c :
  add_rounded_corners kw = false ->
  rsvg = Some run ->
  derive_geometry size kw = inr g ->
  produced (run (files fs !! svg) (scaled_content_size g)) = Some c ->
  out <> temp_path size ->
  let o := generate_icon rsvg cover kernel svg out size bg kw fs in
  result o = inr true ->
  let content := convert_rgba c in
  let off := (rounded_icon_size g - scaled_content_size g) / 2 in
  (exists im, files (final o) !! out = Some (Png im) /\
     forall x y,
       band_a (px im x y) =
         if inside content (x - off) (y - off)
         then blend (band_a (px content (x - off) (y - off))) 255
                    (band_a (px content (x - off) (y - off)))
         else 255) /\
  (forall a, 0 <= a <= 255 ->
     191 <= blend a 255 a <= 255 /\ (blend a 255 a = 255 <-> a = 0 \/ a = 255)).
Proof.
  intros Hsq Hr Hg Hp Hne o Hres content off.
  split; [|exact blend_self_alpha].
  pose proof (wp_generate_icon_square svg out size bg kw fs run g c
                Hsq Hr Hg Hp Hne Hres) as H.
  cbv zeta in H. eexists. split; [exact H|].
  intros x y. rewrite band_a_paste_self by apply im_mode_convert_rgba.
  reflexivity.
Qed.

(** *** Runs without exceptions *)








Lemma omap_announced_none ev :
  Forall (fun e => announced e = None) ev -> omap announced ev = [].
Proof.
  induction 1 as [|e ev He _ IH]; [reflexivity|].
  cbn [omap list_omap]. rewrite He. exact IH.
Qed.






(** *** Running twice *)

Lemma pure_ret {A} (a : A) : pure (mret a : M A).
Proof. exists (inr a), []. reflexivity. Qed.

Lemma pure_raise {A} e : pure (raise e : M A).
Proof. exists (inl e), []. reflexivity. Qed.

Lemma pure_emit e : pure (emit e).
Proof. exists (inr tt), [e]. reflexivity. Qed.

Lemma pure_lift_conv {A} (c : conv A) : pure (lift_conv c).
Proof. destruct c; [apply pure_raise|apply pure_ret]. Qed.

Lemma pure_bind {A B} (c : M A) (k : A -> M B) :
  pure c -> (forall a, pure (k a)) -> pure (c ≫= k).
Proof.
  intros (r & ev & Hc) Hk. unfold mbind, M_bind, bind.
  destruct r as [e|a].
  - exists (inl e), ev. intros fs. rewrite Hc. reflexivity.
  - destruct (Hk a) as (r' & ev' & Hk').
    exists r', (ev ++ ev'). intros fs. rewrite Hc, Hk'. reflexivity.
Qed.

Ltac pure_step :=
  lazymatch goal with
  | |- pure (_ ≫= _) => apply pure_bind; [|intros ?]
  | |- pure (mret _) => apply pure_ret
  | |- pure (raise _) => apply pure_raise
  | |- pure (emit _) => apply pure_emit
  | |- pure (lift_conv _) => apply pure_lift_conv
  | |- pure (if ?b then _ else _) => destruct b
  | |- pure (image_new _ _ _ _ _) => unfold image_new
  | |- pure (image_paste _ _ _ _ _ _ _) => unfold image_paste
  | |- pure (image_putalpha _ _ _ _) => unfold image_putalpha
  | |- pure (draw_rounded_rectangle _ _ _ _ _ _ _ _ _) => unfold draw_rounded_rectangle
  | |- pure (image_blur _ _ _ _) => unfold image_blur
  | |- pure (create_rounded_rectangle_mask _ _ _) => unfold create_rounded_rectangle_mask
  | |- pure (add_shadow_layer _ _ _ _ _ _) => unfold add_shadow_layer
  end.

Lemma round_and_composite_pure size g kw icon :
  pure (round_and_composite cover kernel size g kw icon).
Proof. unfold round_and_composite. repeat pure_step. Qed.

Lemma wp_pure {A} (c : M A) r ev fs (Q : post A) :
  (forall fs, c fs = Outcome r fs ev) -> Q r fs ev -> wp c fs Q.
Proof. intros Hc HQ. unfold wp. rewrite Hc. exact HQ. Qed.

(** [generate_icon] touches its transient path and its output path only. *)
Lemma wp_generate_icon_frame svg out size bg kw fs :
  wp (generate_icon rsvg cover kernel svg out size bg kw) fs (fun r fs' ev =>
    dirs fs' = dirs fs /\
    forall p, p <> temp_path size -> p <> out -> files fs' !! p = files fs !! p).
Proof.
  unfold generate_icon.
  wp_step. wp_step; [auto|].
  wp_step. apply wp_convert_svg_to_png.
  - intros _. wp_red. cbn [negb]. wp_step. auto.
  - intros run _. cbv zeta.
    assert (Hw : let fs1 := match produced (run (files fs !! svg) (scaled_content_size g)) with
                       | Some im => write_file (temp_path size) (Png im) fs
                       | None => fs
                       end in
                 dirs fs1 = dirs fs /\
                 forall p, p <> temp_path size -> files fs1 !! p = files fs !! p).
    { destruct (produced _); cbn [dirs files write_file]; split; auto.
      intros p Hp. apply lookup_insert_ne. congruence. }
    cbv zeta in Hw. destruct Hw as [Hd Hf].
    destruct (exit_ok _); wp_red; cbn [negb]; [|wp_step; split; auto].
    destruct bg as [[r0 g0] b0].
    repeat wp_prim; try (split; auto; fail).
    all: match goal with
         | |- wp (round_and_composite _ _ ?s ?g ?k ?i) _ _ =>
             destruct (round_and_composite_pure s g k i) as (r & ev & Hp);
             eapply wp_pure; [exact Hp|]
         end.
    all: destruct r as [e|[v icon]]; wp_red; [split; auto|].
    all: repeat wp_prim; try (split; auto; fail).
    all: cbn [dirs files write_file remove_file]; split; [exact Hd|].
    all: intros p Hp1 Hp2.
    all: try rewrite lookup_delete_ne by congruence.
    all: rewrite lookup_insert_ne by congruence; auto.
Qed.

Lemma fsys_eq fs fs' :
  dirs fs = dirs fs' -> (forall p, files fs !! p = files fs' !! p) -> fs = fs'.
Proof.
  destruct fs as [F D], fs' as [F' D']. cbn [files dirs]. intros -> H.
  f_equal. apply map_eq. exact H.
Qed.

Ltac norm_lookup :=
  cbn [files dirs write_file remove_file] in *;
  repeat match goal with
         | H : context [<[?p := _]> _ !! ?p] |- _ => rewrite lookup_insert_eq in H
         | H : context [delete ?p _ !! ?p] |- _ => rewrite lookup_delete_eq in H
         end;
  simplify_eq.

Ltac fs_absurd size out :=
  exfalso; norm_lookup;
  repeat match goal with
         | H : dirs _ = dirs _ |- _ => rewrite H in *
         end;
  first [contradiction|congruence|
         destruct (decide (temp_path size = out)) as [Heq|Hne];
         [rewrite <- ?Heq in *; norm_lookup; congruence
         |rewrite ?lookup_insert_ne, ?lookup_insert_eq in * by congruence;
          congruence]].

Ltac fs_same size out :=
  apply fsys_eq; [reflexivity|]; intros p; norm_lookup;
  destruct (decide (p = temp_path size)) as [->|Hpt];
  [rewrite ?lookup_delete_eq, ?lookup_insert_eq;
   try (destruct (decide (temp_path size = out)) as [Heq|Hne];
        [rewrite <- ?Heq in *|]);
   rewrite ?lookup_delete_eq, ?lookup_insert_eq, ?lookup_insert_ne in * by congruence;
   norm_lookup; congruence
  |rewrite ?lookup_delete_ne by congruence;
   destruct (decide (p = out)) as [->|Hpo];
   [rewrite ?lookup_insert_eq, ?lookup_insert_ne in * by congruence;
    rewrite ?lookup_delete_ne, ?lookup_insert_eq, ?lookup_insert_ne in * by congruence;
    congruence
   |rewrite ?lookup_insert_ne by congruence; reflexivity]].

Ltac fs_leaf size out :=
  first
    [ solve [fs_absurd size out]
    | split;
      [fs_same size out
      |intros [e He]; first [discriminate He|eexists; reflexivity]] ].

(** A second call of [generate_icon], from a file system that holds at
    the transient path and at the output path what the first call left
    there and that agrees with the first on the source and on the
    directories, changes nothing; it raises if the first call did. *)
Lemma wp_generate_icon_rerun svg out size bg kw fs1 fs2 :
  files fs2 !! svg = files fs1 !! svg ->
  dirs fs2 = dirs fs1 ->
  wp (generate_icon rsvg cover kernel svg out size bg kw) fs1 (fun r1 f1 _ =>
    files fs2 !! temp_path size = files f1 !! temp_path size ->
    files fs2 !! out = files f1 !! out ->
    wp (generate_icon rsvg cover kernel svg out size bg kw) fs2 (fun r2 f2 _ =>
      f2 = fs2 /\ (raised r1 -> raised r2))).
Proof.
  intros Hsvg Hdirs.
  unfold generate_icon at 1.
  wp_step. wp_step.
  { intros _ _. unfold generate_icon. wp_step. rewrite Hconv. apply wp_lift_conv.
    wp_red. split; [reflexivity|]. intros _. eexists; reflexivity. }
  wp_step. apply wp_convert_svg_to_png.
  { intros Hnone. wp_red. cbn [negb]. wp_step. intros _ _.
    unfold generate_icon. wp_step. rewrite Hconv. apply wp_lift_conv. wp_red.
    wp_step. apply wp_convert_svg_to_png; [|intros run Hrun; congruence].
    intros _. wp_red. cbn [negb]. wp_step. split; [reflexivity|].
    intros [e He]. discriminate He. }
  intros run Hrun. cbv zeta.
  set (res := run (files fs1 !! svg) (scaled_content_size g)).
  assert (Hres2 : run (files fs2 !! svg) (scaled_content_size g) = res)
    by (unfold res; rewrite Hsvg; reflexivity).
  destruct (exit_ok res) eqn:Hx; wp_red; cbn [negb].
  2:{ wp_step. intros Ht _.
      unfold generate_icon. wp_step. rewrite Hconv. apply wp_lift_conv. wp_red.
      wp_step. apply wp_convert_svg_to_png; [intros Hn; congruence|].
      intros run' Hrun'. assert (run' = run) as -> by congruence. cbv zeta.
      rewrite Hres2, Hx. wp_red. cbn [negb]. wp_step.
      split; [|intros [e He]; discriminate He].
      destruct (produced res) as [im|]; [|reflexivity].
      apply fsys_eq; [reflexivity|]. intros p. cbn [files write_file] in *.
      destruct (decide (p = temp_path size)) as [->|Hne].
      - rewrite lookup_insert_eq in *. congruence.
      - rewrite lookup_insert_ne by congruence. reflexivity. }
  destruct bg as [[r0 g0] b0].
  destruct (produced res) as [im|] eqn:Hp.
  - (* the rasterizer left its raster *)
    repeat wp_prim; norm_lookup.
    all: try match goal with
         | |- wp (round_and_composite _ _ ?s ?g ?k ?i) _ _ =>
             destruct (round_and_composite_pure s g k i) as (rc & evc & Hrc);
             eapply wp_pure; [exact Hrc|];
             destruct rc as [ec|[vc iconc]]; wp_red; repeat wp_prim
         end.
    all: intros Ht Ho.
    all: unfold generate_icon; wp_step; rewrite Hconv; apply wp_lift_conv; wp_red.
    all: wp_step; apply wp_convert_svg_to_png; [intros Hn; congruence|].
    all: intros run' Hrun'; assert (run' = run) as -> by congruence; cbv zeta.
    all: rewrite Hres2, Hx, Hp; wp_red; cbn [negb].
    all: repeat wp_prim; norm_lookup.
    all: try lia.
    all: try match goal with
         | |- wp (round_and_composite _ _ ?s ?g ?k ?i) _ _ =>
             eapply wp_pure; [first [exact Hrc|fail]|]; wp_red; repeat wp_prim
         end.
    all: fs_leaf size out.
  - (* nothing was left: the raster read is the one already there *)
    repeat wp_prim; norm_lookup.
    all: try match goal with
         | |- wp (round_and_composite _ _ ?s ?g ?k ?i) _ _ =>
             destruct (round_and_composite_pure s g k i) as (rc & evc & Hrc);
             eapply wp_pure; [exact Hrc|];
             destruct rc as [ec|[vc iconc]]; wp_red; repeat wp_prim
         end.
    all: intros Ht Ho.
    all: unfold generate_icon; wp_step; rewrite Hconv; apply wp_lift_conv; wp_red.
    all: wp_step; apply wp_convert_svg_to_png; [intros Hn; congruence|].
    all: intros run' Hrun'; assert (run' = run) as -> by congruence; cbv zeta.
    all: rewrite Hres2, Hx, Hp; wp_red; cbn [negb].
    all: repeat wp_prim; norm_lookup.
    all: try lia.
    all: try (fs_leaf size out; fail).
    all: try match goal with
         | Ha : ?x = Some (Png ?a), Hb : ?y = Some (Png ?b), Hxy : ?y = ?x
           |- wp (round_and_composite _ _ _ _ _ _) _ _ =>
             assert (b = a) as -> by congruence
         end.
    all: try match goal with
         | |- wp (round_and_composite _ _ ?s ?g ?k ?i) _ _ =>
             eapply wp_pure; [first [exact Hrc|fail]|]; wp_red; repeat wp_prim
         end.
    all: fs_leaf size out.
Qed.

Lemma wp_forall {A B} (c : M A) fs (Q : B -> post A) :
  (forall b, wp c fs (Q b)) -> wp c fs (fun r fs' ev => forall b, Q b r fs' ev).
Proof. unfold wp. auto. Qed.

(** The loop touches the transient and output paths of its entries only. *)
Lemma wp_generate_all_frame args bg specs cnt fs :
  wp (generate_all rsvg cover kernel args bg specs cnt) fs (fun r fs' ev =>
    dirs fs' = dirs fs /\
    forall p,
      Forall (fun sf : Z * string =>
                p <> temp_path sf.1 /\ p <> (output_dir args, sf.2)) specs ->
      files fs' !! p = files fs !! p).
Proof.
  revert cnt fs. induction specs as [|[size filename] specs IH]; intros cnt fs.
  - cbn [generate_all]. wp_step. auto.
  - cbn [generate_all]. cbv zeta. repeat wp_step.
    eapply wp_mono; [apply wp_generate_icon_frame|].
    cbv beta. intros r fs1 ev [Hd Hf].
    assert (Hhead : forall p,
      Forall (fun sf : Z * string =>
                p <> temp_path sf.1 /\ p <> (output_dir args, sf.2))
             ((size, filename) :: specs) ->
      files fs1 !! p = files fs !! p).
    { intros p Hp. apply Forall_cons_1 in Hp as [[H1 H2] _]. apply Hf; assumption. }
    destruct r as [e|b]; wp_red; [auto|].
    destruct b; repeat wp_step.
    all: eapply wp_mono; [apply IH|].
    all: cbv beta; intros r fs2 ev2 [Hd2 Hf2].
    all: split; [congruence|].
    all: intros p Hp; rewrite Hf2, Hhead; auto.
    all: apply Forall_cons_1 in Hp as [_ Hp]; exact Hp.
Qed.

Lemma wp_generate_icon_rerun_any svg out size bg kw fs1 :
  wp (generate_icon rsvg cover kernel svg out size bg kw) fs1 (fun r1 f1 _ =>
    forall fs2,
      files fs2 !! svg = files fs1 !! svg ->
      dirs fs2 = dirs fs1 ->
      files fs2 !! temp_path size = files f1 !! temp_path size ->
      files fs2 !! out = files f1 !! out ->
      wp (generate_icon rsvg cover kernel svg out size bg kw) fs2 (fun r2 f2 _ =>
        f2 = fs2 /\ (raised r1 -> raised r2))).
Proof.
  unfold wp at 1. intros fs2 H1 H2.
  exact (wp_generate_icon_rerun svg out size bg kw fs1 fs2 H1 H2).
Qed.

Lemma entry_names_tail (specs : list (Z * string)) sf :
  sf ∈ specs -> (temp_path sf.1).2 ∈ entry_names specs /\ sf.2 ∈ entry_names specs.
Proof.
  intros Hin. unfold entry_names.
  split; apply list_elem_of_In, in_flat_map; exists sf;
    (split; [apply list_elem_of_In; exact Hin|cbn [In]; auto]).
Qed.

(** A second run of the loop, from a file system that holds at the
    paths of the entries what the first run left there and agrees with
    the first on the source and the directories, changes nothing. *)
Lemma wp_generate_all_rerun args bg specs :
  NoDup (entry_names specs) ->
  source_untouched (svg_file args) (output_dir args) specs ->
  forall cnt1 fs1,
  wp (generate_all rsvg cover kernel args bg specs cnt1) fs1 (fun r1 F _ =>
    forall fs2,
      files fs2 !! svg_file args = files fs1 !! svg_file args ->
      dirs fs2 = dirs fs1 ->
      Forall (fun sf : Z * string =>
                files fs2 !! temp_path sf.1 = files F !! temp_path sf.1 /\
                files fs2 !! (output_dir args, sf.2) = files F !! (output_dir args, sf.2))
             specs ->
      forall cnt2,
        wp (generate_all rsvg cover kernel args bg specs cnt2) fs2 (fun r2 f2 _ =>
          f2 = fs2 /\ (raised r1 -> raised r2))).
Proof.
  induction specs as [|[size filename] specs IH]; intros Hnd Hsrc cnt1 fs1.
  - cbn [generate_all]. wp_step. intros fs2 _ _ _ cnt2. wp_step.
    split; [reflexivity|]. intros [e He]. discriminate He.
  - cbn [entry_names flat_map app] in Hnd. fold (entry_names specs) in Hnd.
    apply NoDup_cons in Hnd as [Hn1 Hnd]. apply NoDup_cons in Hnd as [Hn2 Hnd].
    apply Forall_cons_1 in Hsrc as [[Hs1 Hs2] Hsrc].
    cbn [fst snd] in *.
    assert (Hdt : Forall (fun sf : Z * string =>
                            temp_path size <> temp_path sf.1 /\
                            temp_path size <> (output_dir args, sf.2)) specs).
    { apply Forall_forall. intros sf Hin.
      destruct (entry_names_tail specs sf Hin) as [Ht Ho].
      split; intros Heq; apply Hn1; apply elem_of_cons; right.
      - rewrite Heq. exact Ht.
      - rewrite Heq. exact Ho. }
    assert (Hdo : Forall (fun sf : Z * string =>
                            (output_dir args, filename) <> temp_path sf.1 /\
                            (output_dir args, filename) <> (output_dir args, sf.2)) specs).
    { apply Forall_forall. intros sf Hin.
      destruct (entry_names_tail specs sf Hin) as [Ht Ho].
      split; intros Heq; apply Hn2.
      - replace filename with (temp_path sf.1).2 by (rewrite <- Heq; reflexivity).
        exact Ht.
      - replace filename with sf.2 by congruence. exact Ho. }
    cbn [generate_all]. cbv zeta. repeat wp_step.
    eapply wp_mono;
      [apply wp_conj; [apply wp_generate_icon_rerun_any|apply wp_generate_icon_frame]|].
    cbv beta. intros r1h f1h evh [Hre [Hfd Hff]].
    destruct r1h as [e|b]; wp_red.
    + intros fs2 Ha Hb Hag cnt2.
      apply Forall_cons_1 in Hag as [[Hat Hao] _]. cbn [fst snd] in *.
      cbn [generate_all]. cbv zeta. repeat wp_step.
      eapply wp_mono; [apply (Hre fs2 Ha Hb Hat Hao)|].
      cbv beta. intros r2 f2 ev2 [-> Hr].
      destruct (Hr ltac:(eexists; reflexivity)) as [e2 ->]. wp_red.
      split; [reflexivity|]. intros _. eexists. reflexivity.
    + assert (Hcont : forall cnt',
        wp (generate_all rsvg cover kernel args bg specs cnt') f1h (fun r1 F _ =>
          forall fs2,
            files fs2 !! svg_file args = files fs1 !! svg_file args ->
            dirs fs2 = dirs fs1 ->
            Forall (fun sf : Z * string =>
                      files fs2 !! temp_path sf.1 = files F !! temp_path sf.1 /\
                      files fs2 !! (output_dir args, sf.2) =
                        files F !! (output_dir args, sf.2))
                   ((size, filename) :: specs) ->
            forall cnt2,
              wp (generate_all rsvg cover kernel args bg ((size, filename) :: specs) cnt2)
                 fs2 (fun r2 f2 _ => f2 = fs2 /\ (raised r1 -> raised r2)))).
      { intros cnt'.
        eapply wp_mono;
          [apply wp_conj; [apply (IH Hnd Hsrc cnt' f1h)|apply wp_generate_all_frame]|].
        cbv beta. intros r1 F ev1 [Htail [_ Hframe]].
        intros fs2 Ha Hb Hag cnt2.
        apply Forall_cons_1 in Hag as [[Hat Hao] Hag]. cbn [fst snd] in *.
        pose proof (eq_trans Hat (Hframe (temp_path size) Hdt)) as Hat'.
        pose proof (eq_trans Hao (Hframe (output_dir args, filename) Hdo)) as Hao'.
        cbn [generate_all]. cbv zeta. repeat wp_step.
        eapply wp_mono; [apply (Hre fs2 Ha Hb Hat' Hao')|].
        cbv beta. intros r2 f2 ev2 [-> _].
        assert (Ha' : files fs2 !! svg_file args = files f1h !! svg_file args)
          by (rewrite Ha; symmetry; apply Hff; assumption).
        assert (Hb' : dirs fs2 = dirs f1h) by congruence.
        destruct r2 as [e2|b2]; wp_red.
        - split; [reflexivity|]. intros _. eexists. reflexivity.
        - destruct b2; repeat wp_step.
          all: eapply wp_mono; [apply (Htail fs2 Ha' Hb' Hag)|].
          all: cbv beta; intros r3 f3 ev3 [-> Hr]; split; [reflexivity|exact Hr]. }
      destruct b; repeat wp_step.
      all: eapply wp_mono; [apply Hcont|]; cbv beta; auto.
Qed.

Lemma make_dir_known d fs : d ∈ dirs fs -> make_dir d fs = fs.
Proof.
  intros Hd. destruct fs as [F D]. unfold make_dir. cbn [files dirs] in *.
  f_equal. apply subseteq_union_1_L, singleton_subseteq_l. exact Hd.
Qed.

Lemma icon_names_distinct : NoDup (entry_names ICON_SIZES).
Proof. refine (bool_decide_unpack _ _). vm_compute. exact I. Qed.

Lemma wp_main_rerun c fs :
  source_untouched (cli_svg_file c) (output_dir (parse_args c)) ICON_SIZES ->
  wp (main rsvg cover kernel c) fs (fun _ F _ =>
    wp (main rsvg cover kernel c) F (fun _ f2 _ => f2 = F)).
Proof.
  intros Hsrc. set (args := parse_args c) in *.
  change (cli_svg_file c) with (svg_file args) in Hsrc.
  unfold main at 1. cbv zeta. fold args.
  wp_step. wp_step. wp_step. wp_step.
  2:{ (* no source *)
      repeat wp_step. unfold main. cbv zeta. fold args.
      wp_step. wp_step. wp_step. rewrite Hif. repeat wp_step. reflexivity. }
  repeat wp_step.
  set (fsA := make_dir (output_dir args) fs).
  assert (HdA : output_dir args ∈ dirs fsA) by (cbn [dirs make_dir fsA]; set_solver).
  assert (Hex : forall F, files F !! svg_file args = files fsA !! svg_file args ->
                          exists_file F (svg_file args) = true).
  { intros F HF. unfold exists_file in *. rewrite HF. exact Hif. }
  unfold hex_to_rgb. destruct (parse_rgb (color args)) as [bg|] eqn:Hbg.
  2:{ (* the colour does not parse *)
      repeat wp_step. unfold main. cbv zeta. fold args.
      wp_step. wp_step. wp_step. rewrite (Hex fsA eq_refl). repeat wp_step.
      unfold hex_to_rgb. rewrite Hbg. repeat wp_step.
      apply make_dir_known. exact HdA. }
  repeat wp_step.
  all: eapply wp_mono;
    [apply wp_conj;
     [apply (wp_generate_all_rerun args bg ICON_SIZES icon_names_distinct Hsrc 0 fsA)
     |apply wp_generate_all_frame]|].
  all: cbv beta; intros r1 F1 ev1 [Hre [Hd1 Hf1]].
  all: assert (Hsvg1 : files F1 !! svg_file args = files fsA !! svg_file args)
    by (apply Hf1; exact Hsrc).
  all: assert (Hsecond : wp (main rsvg cover kernel c) F1 (fun _ f2 _ => f2 = F1)).
  all: try (unfold main; cbv zeta; fold args;
            wp_step; wp_step; wp_step; rewrite (Hex F1 Hsvg1); repeat wp_step;
            rewrite (make_dir_known (output_dir args) F1) by (rewrite Hd1; exact HdA);
            unfold hex_to_rgb; rewrite Hbg; repeat wp_step;
            (eapply wp_mono;
             [apply (Hre F1 Hsvg1 Hd1); apply Forall_forall; intros; split; reflexivity|]);
            cbv beta; intros r2 f2 ev2 [-> _];
            destruct r2; wp_red; repeat wp_step; reflexivity).
  all: destruct r1; wp_red; repeat wp_step; exact Hsecond.
Qed.

(** C9. Run a second time with the same command line, from the file
    system the first run left, [main] leaves every file and directory as
    it found them: each output file is rewritten with the same content,
    each transient file that was removed is removed again, and what a
    failed size left is left again. The source is assumed not to be one
    of the paths the run writes to; the rasterizer, the scan conversion
    and the blur are functions of their arguments. *)
Theorem rerun_changes_nothing c fs :
  source_untouched (cli_svg_file c) (output_dir (parse_args c)) ICON_SIZES ->
  let first := main rsvg cover kernel c fs in
  let second := main rsvg cover kernel c (final first) in
  final second = final first.
Proof. intros Hsrc. exact (wp_main_rerun c fs Hsrc). Qed.

End Properties.

Import Fixtures.

Lemma generate_icon_saves_size_by_size_witness :
  exists im,
    files (final (generate_icon rsvg_ok box_cover no_blur source
                    ("out", "icon_1024.png") 1024 brand kw_padded_shadow fs0))
      !! ("out", "icon_1024.png") = Some (Png im) /\
    width im = 1024 /\ height im = 1024.
Proof.
  destruct (generate_icon_saves_size_by_size rsvg_ok box_cover no_blur source
              ("out", "icon_1024.png") 1024 brand kw_padded_shadow fs0) as [_ H].
  destruct H as [_ H]; [vm_compute; reflexivity|].
  apply H. vm_compute. discriminate.
Defined.



(** C2, the claim as stated: with a padding of 0.6 (size 512, scale 1.0,
    rounded corners, no corner padding) the script asks the rasterizer
    for -102 pixels, the truncation of -102.39..., where the floor of the
    claim is -103, in double precision and in exact arithmetic alike. *)
Lemma floor_request_counterexample :
  let o := generate_icon rsvg_ok box_cover no_blur source ("out", "icon_512.png")
             512 brand kw_padding_06 fs0 in
  hd_error (emitted o) = Some (EvRsvg source (temp_path 512) (-102)) /\
  Spec.derive 512 true (Fin 0 0) (of_ratio 6 10) (Fin 1 0)
    = inr (Spec.Geometry 512 0 (-103) (-103) 307) /\
  Spec.exact_request 512 6 10 = -103.
Proof. vm_compute. auto. Qed.

(** The products are doubles: for the table's size 180 with the default
    padding the product [180 * (1 - 2 * 0.15)] is 125.99999999999999, so
    the request is 125 pixels, where exact arithmetic gives 126. *)
Remark size_180_requests_125 :
  derive_geometry 180 kw_scenario = inr (Geometry 180 0 125 125) /\
  Spec.exact_request 180 15 100 = 126.
Proof. vm_compute. auto. Qed.

Lemma composite_exactly_when_rounded_witness :
  exists g, derive_geometry 1024 kw_padded_shadow = inr g.
Proof.
  destruct (composite_exactly_when_rounded rsvg_ok box_cover no_blur source
              ("out", "icon_1024.png") 1024 brand kw_padded_shadow fs0)
    as (g & Hg & _); [vm_compute; reflexivity|].
  exists g. exact Hg.
Defined.

(** C3, the claim as stated: with rounded corners off and the shadow on,
    the condition of the claim holds and the call succeeds, yet no canvas
    of step 5 is allocated and nothing is composited: the canvas of
    step 3 is saved as it is. *)
Lemma square_shadow_counterexample :
  let o := generate_icon rsvg_ok box_cover no_blur source ("out", "icon_512.png")
             512 brand kw_square_shadow fs0 in
  Spec.step5_performed (corner_padding_ratio kw_square_shadow)
                       (add_shadow kw_square_shadow) = true /\
  result o = inr true /\
  emitted o =
    [EvRsvg source ("/tmp", "temp_icon_512.png") 358;
     EvNew VIcon RGBA 512 512 (113, 202, 238, 255);
     EvOpen VContent ("/tmp", "temp_icon_512.png");
     EvPaste VIcon VContent 77 77 (Some VContent);
     EvSave VIcon ("out", "icon_512.png") 512 512;
     EvRemove ("/tmp", "temp_icon_512.png")] /\
  existsb on_final (emitted o) = false.
Proof. vm_compute. auto. Qed.

Lemma corner_radius_by_truncation_witness :
  exists g, derive_geometry 512 kw_defaults = inr g /\
    (VMask = VMask \/ VMask = VShadow) /\
    truncated_product (rounded_icon_size g) default_radius_ratio 114.
Proof.
  apply (proj1 (corner_radius_by_truncation rsvg_ok box_cover no_blur)
           source ("out", "icon_512.png") 512 brand kw_defaults fs0
           VMask 0 0 512 512 114 (255, 0, 0, 0)).
  vm_compute. do 5 right. left. reflexivity.
Defined.

(** C5, the claim as stated: for a rounded size of 512 the mask is drawn
    with radius 114 where the rounding of the claim gives 115. *)
Lemma rounded_radius_counterexample :
  let o := generate_icon rsvg_ok box_cover no_blur source ("out", "icon_512.png")
             512 brand kw_defaults fs0 in
  emitted o =
    [EvRsvg source ("/tmp", "temp_icon_512.png") 358;
     EvNew VIcon RGBA 512 512 (113, 202, 238, 255);
     EvOpen VContent ("/tmp", "temp_icon_512.png");
     EvPaste VIcon VContent 77 77 (Some VContent);
     EvNew VMask L 512 512 (0, 0, 0, 0);
     EvRoundedRectangle VMask 0 0 512 512 114 (255, 0, 0, 0);
     EvNew VRoundedOutput RGBA 512 512 (0, 0, 0, 0);
     EvPaste VRoundedOutput VIcon 0 0 None;
     EvPutAlpha VRoundedOutput VMask;
     EvSave VRoundedOutput ("out", "icon_512.png") 512 512;
     EvRemove ("/tmp", "temp_icon_512.png")] /\
  Spec.corner_radius 512 = inr 115.
Proof. vm_compute. auto. Qed.

(** C8. Left out of a call of [generate_icon], the shadow opacity is the
    0.9 of the signature and the shadow is filled at alpha 229; left out
    of the command line, it is the 0.3 of the parser and the nineteen
    shadows are filled at alpha 76. *)
Theorem shadow_opacity_defaults_disagree :
  shadow_opacity kw_shadow = of_ratio 9 10 /\
  args_shadow_opacity (parse_args cli_shadow) = of_ratio 3 10 /\
  omap shadow_alpha
    (emitted (generate_icon rsvg_ok box_cover no_blur source ("out", "icon_512.png")
                512 brand kw_shadow fs0)) = [229] /\
  omap shadow_alpha (emitted (main rsvg_ok box_cover no_blur cli_shadow fs0))
    = replicate 19 76.
Proof. vm_compute. auto. Qed.

Lemma temp_file_left_by_failed_rasterizer_witness :
  result (generate_icon rsvg_fails_late box_cover no_blur source
            ("out", "icon_512.png") 512 brand kw_defaults fs0) = inr false /\
  files (final (generate_icon rsvg_fails_late box_cover no_blur source
                  ("out", "icon_512.png") 512 brand kw_defaults fs0))
    !! temp_path 512 = Some (Png (veil 358)).
Proof.
  apply (temp_file_left_by_failed_rasterizer rsvg_fails_late box_cover no_blur
           source ("out", "icon_512.png") 512 brand kw_defaults fs0
           (fun _ n => RsvgResult false "error" (Some (veil n)))
           (Geometry 512 0 358 358) (veil 358)).
  - reflexivity.
  - vm_compute. reflexivity.
  - reflexivity.
  - reflexivity.
Defined.

(** C6. On two failure paths the transient raster stays on disk: when the
    rasterizer wrote it and exited with a nonzero status ([generate_icon]
    returns [False] before the clean-up), and when the image cannot be
    saved (the exception leaves [generate_icon] before the clean-up).
    Only a call that returns [True] removes it. *)
Theorem transient_file_survives_failures :
  let failed := generate_icon rsvg_fails_late box_cover no_blur source
                  ("out", "icon_512.png") 512 brand kw_defaults fs0 in
  let unsaved := generate_icon rsvg_ok box_cover no_blur source
                   ("missing", "icon_512.png") 512 brand kw_defaults fs0 in
  let saved := generate_icon rsvg_ok box_cover no_blur source
                 ("out", "icon_512.png") 512 brand kw_defaults fs0 in
  (result failed = inr false /\
   exists_file (final failed) ("/tmp", "temp_icon_512.png") = true) /\
  (result unsaved = inl (FileNotFound ("missing", "icon_512.png")) /\
   exists_file (final unsaved) ("/tmp", "temp_icon_512.png") = true) /\
  (result saved = inr true /\
   exists_file (final saved) ("/tmp", "temp_icon_512.png") = false).
Proof. vm_compute. auto 10. Qed.

Lemma square_icon_alpha_is_blended_witness :
  exists im,
    files (final (generate_icon rsvg_ok box_cover no_blur source
                    ("out", "icon_512.png") 512 brand kw_square fs0))
      !! ("out", "icon_512.png") = Some (Png im) /\
    band_a (px im 100 100) = 191 /\ band_a (px im 0 0) = 255.
Proof.
  destruct (square_icon_alpha_is_blended rsvg_ok box_cover no_blur source
              ("out", "icon_512.png") 512 brand kw_square fs0
              (fun _ n => RsvgResult true "" (Some (veil n)))
              (Geometry 512 0 358 358) (veil 358))
    as [(im & Him & Hpx) _].
  - reflexivity.
  - reflexivity.
  - vm_compute. reflexivity.
  - reflexivity.
  - vm_compute. discriminate.
  - vm_compute. reflexivity.
  - exists im. split; [exact Him|].
    split; [rewrite (Hpx 100 100)|rewrite (Hpx 0 0)]; vm_compute; reflexivity.
Defined.

(** C10, the claim as stated: with rounded corners off, a content pixel
    of alpha 128 leaves the saved pixel at alpha 191, not 255. *)
Lemma square_icon_alpha_counterexample :
  let o := generate_icon rsvg_ok box_cover no_blur source ("out", "icon_512.png")
             512 brand kw_square fs0 in
  add_rounded_corners kw_square = false /\
  result o = inr true /\
  match files (final o) !! ("out", "icon_512.png") with
  | Some (Png im) =>
      width im = 512 /\ height im = 512 /\
      px (veil 358) 23 23 = (10, 20, 30, 128) /\
      px im 100 100 = (61, 111, 134, 191)
  | _ => False
  end.
Proof. vm_compute. auto 10. Qed.



Lemma rerun_changes_nothing_witness :
  final (main rsvg_ok box_cover no_blur cli_plain
           (final (main rsvg_ok box_cover no_blur cli_plain fs0)))
    = final (main rsvg_ok box_cover no_blur cli_plain fs0).
Proof.
  apply (rerun_changes_nothing rsvg_ok box_cover no_blur cli_plain fs0).
  unfold source_untouched, ICON_SIZES.
  repeat (apply Forall_cons; split; [split; vm_compute; discriminate|]).
  apply Forall_nil_2.
Defined.

Lemma rasterizer_request_by_truncation_witness :
  exists rest,
    emitted (generate_icon rsvg_ok box_cover no_blur source ("out", "icon_512.png")
               512 brand kw_scenario fs0)
      = EvRsvg source (temp_path 512) 358 :: rest.
Proof.
  exact (proj1 (proj2 (proj2 (rasterizer_request_by_truncation rsvg_ok box_cover no_blur))
                  source ("out", "icon_512.png") brand fs0)).
Defined.

(* ===================================================================== *)
(** ** Further properties: the colour notation *)
(* ===================================================================== *)

Import Colour Ratio Canvas Tool Trace.

Section HexToRgb.

Lemma all_ascii (P : ascii -> bool) :
  forallb (fun n => P (ascii_of_nat n)) (seq 0 256) = true -> forall c, P c = true.
Proof.
  intros H c. rewrite forallb_forall in H.
  rewrite <- (ascii_nat_embedding c). apply H, in_seq.
  pose proof (nat_ascii_bounded c). lia.
Qed.

Lemma lstrip_hash_other c s :
  c <> "#"%char -> lstrip_hash (String c s) = String c s.
Proof.
  intros Hc.
  destruct c as [[] [] [] [] [] [] [] []]; try reflexivity. contradiction.
Qed.

Lemma lstrip_hash_hashes n s : lstrip_hash (hashes n +:+ s) = lstrip_hash s.
Proof. induction n as [|n IH]; [reflexivity|exact IH]. Qed.

Lemma hex_byte_read upper v :
  byte v -> int_base16 (hex_byte upper v) = Some v /\ hex_char upper (v / 16) <> "#"%char.
Proof.
  intros Hv.
  set (check := fun n : nat =>
    let v := Z.of_nat n in
    forallb (fun up =>
      bool_decide (int_base16 (hex_byte up v) = Some v) &&
      negb (Ascii.eqb (hex_char up (v / 16)) "#"%char)) [true; false]).
  assert (Hall : forallb check (seq 0 256) = true) by (vm_compute; reflexivity).
  rewrite forallb_forall in Hall.
  specialize (Hall (Z.to_nat v) ltac:(apply in_seq; unfold byte in Hv; lia)).
  unfold check in Hall. cbv zeta in Hall. rewrite Z2Nat.id in Hall by (unfold byte in Hv; lia).
  rewrite forallb_forall in Hall.
  specialize (Hall upper ltac:(destruct upper; cbn; auto)).
  apply andb_prop in Hall as [H1 H2].
  split; [exact (bool_decide_eq_true_1 _ H1)|].
  intros Heq. rewrite Heq in H2. discriminate H2.
Qed.

Lemma append_cons c (s t : string) : (String c s +:+ t = String c (s +:+ t))%string.
Proof. reflexivity. Qed.

Lemma substring_app_l i n (s t : string) :
  (i + n <= String.length s)%nat ->
  String.substring i n (s +:+ t) = String.substring i n s.
Proof.
  revert i n. induction s as [|c s IH]; intros i n Hl; cbn [String.length] in Hl.
  - assert (i = 0%nat) as -> by lia. assert (n = 0%nat) as -> by lia.
    destruct t; reflexivity.
  - destruct i as [|i].
    + destruct n as [|n]; [reflexivity|].
      rewrite append_cons. cbn [String.substring]. f_equal. apply (IH 0%nat). lia.
    + rewrite append_cons. cbn [String.substring]. apply IH. lia.
Qed.

Lemma substring_beyond i n (s : string) :
  (String.length s <= i)%nat -> String.substring i n s = EmptyString.
Proof.
  revert i n. induction s as [|c s IH]; intros i n Hl; cbn [String.length] in Hl.
  - destruct i, n; reflexivity.
  - destruct i as [|i]; [lia|]. cbn [String.substring]. apply IH. lia.
Qed.

Lemma substring_length_le i n (s : string) :
  (String.length (String.substring i n s) <= n)%nat.
Proof.
  revert i n. induction s as [|c s IH]; intros i n.
  - destruct i, n; cbn; lia.
  - destruct i as [|i].
    + destruct n as [|n]; [cbn; lia|].
      cbn [String.substring String.length]. specialize (IH 0%nat n). lia.
    + cbn [String.substring]. apply IH.
Qed.

Lemma lstrip_hash_app (s t : string) :
  lstrip_hash s <> EmptyString -> lstrip_hash (s +:+ t) = (lstrip_hash s +:+ t)%string.
Proof.
  induction s as [|c s IH]; intros Hne; [contradiction|].
  destruct (Ascii.eqb_spec c "#"%char) as [->|Hc].
  - rewrite append_cons. apply IH. exact Hne.
  - rewrite lstrip_hash_other in * by exact Hc.
    rewrite append_cons. apply lstrip_hash_other. exact Hc.
Qed.

(** The integer [int(s, 16)] reads from at most two characters. *)
Lemma int_base16_range (s : string) z :
  (String.length s <= 2)%nat -> int_base16 s = Some z -> -15 <= z <= 255.
Proof.
  intros Hl.
  set (ok := fun s : string =>
    match int_base16 s with
    | Some z => (-15 <=? z) && (z <=? 255)
    | None => true
    end).
  assert (H2 : forall c1 c2, ok (String c1 (String c2 EmptyString)) = true).
  { intros c1 c2.
    apply (all_ascii (fun c2 => ok (String c1 (String c2 EmptyString)))).
    revert c1.
    apply (all_ascii (fun c1 =>
      forallb (fun n => ok (String c1 (String (ascii_of_nat n) EmptyString))) (seq 0 256))).
    vm_compute. reflexivity. }
  assert (H1 : forall c1, ok (String c1 EmptyString) = true).
  { apply (all_ascii (fun c1 => ok (String c1 EmptyString))). vm_compute. reflexivity. }
  intros Hz.
  assert (Hok : ok s = true).
  { destruct s as [|c1 [|c2 [|c3 s]]]; [reflexivity|apply H1|apply H2|cbn in Hl; lia]. }
  unfold ok in Hok. rewrite Hz in Hok. apply andb_prop in Hok as [Ha Hb]. lia.
Qed.

(** The three bands [hex_to_rgb] returns lie between -15 and 255: a slice
    of two characters may hold a sign and one digit. *)
Lemma parse_rgb_range (s : string) r g b :
  parse_rgb s = Some (r, g, b) ->
  -15 <= r <= 255 /\ -15 <= g <= 255 /\ -15 <= b <= 255.
Proof.
  unfold parse_rgb. cbv zeta. intros H.
  destruct (int_base16 (String.substring 0 2 (lstrip_hash s))) as [r'|] eqn:Er; [|discriminate].
  destruct (int_base16 (String.substring 2 2 (lstrip_hash s))) as [g'|] eqn:Eg; [|discriminate].
  destruct (int_base16 (String.substring 4 2 (lstrip_hash s))) as [b'|] eqn:Eb; [|discriminate].
  cbn in H. simplify_eq.
  repeat split; eapply int_base16_range; eauto using substring_length_le.
Qed.

(** X1. [hex_to_rgb] reads the notation back: for bands [r], [g], [b]
    between 0 and 255, written with two hexadecimal digits each, in lower
    or in upper case, behind any number of hash signs, it returns
    [(r, g, b)], touches nothing and prints nothing. *)
Theorem hex_to_rgb_reads_notation upper n r g b fs :
  byte r -> byte g -> byte b ->
  hex_to_rgb (hashes n +:+ rrggbb upper (r, g, b)) fs = Outcome (inr (r, g, b)) fs [].
Proof.
  intros Hr Hg Hb.
  destruct (hex_byte_read upper r Hr) as [Er Hc].
  destruct (hex_byte_read upper g Hg) as [Eg _].
  destruct (hex_byte_read upper b Hb) as [Eb _].
  unfold hex_to_rgb, parse_rgb. cbv zeta. rewrite lstrip_hash_hashes.
  unfold rrggbb.
  replace (lstrip_hash (hex_byte upper r +:+ hex_byte upper g +:+ hex_byte upper b))
    with (hex_byte upper r +:+ hex_byte upper g +:+ hex_byte upper b)%string
    by (symmetry; apply lstrip_hash_other; exact Hc).
  change (String.substring 0 2 (hex_byte upper r +:+ hex_byte upper g +:+ hex_byte upper b))
    with (hex_byte upper r).
  change (String.substring 2 2 (hex_byte upper r +:+ hex_byte upper g +:+ hex_byte upper b))
    with (hex_byte upper g).
  change (String.substring 4 2 (hex_byte upper r +:+ hex_byte upper g +:+ hex_byte upper b))
    with (hex_byte upper b).
  rewrite Er, Eg, Eb. reflexivity.
Qed.

Lemma parse_rgb_ignores_tail (s t : string) :
  (6 <= String.length (lstrip_hash s))%nat ->
  parse_rgb (s +:+ t) = parse_rgb s.
Proof.
  intros Hl. unfold parse_rgb. cbv zeta.
  rewrite lstrip_hash_app by (intros E; rewrite E in Hl; cbn in Hl; lia).
  rewrite !substring_app_l by lia. reflexivity.
Qed.

(** X2. Only six characters are read: when at least six characters are
    left once the leading hash signs are stripped, whatever follows them
    (the alpha of an eight digit colour, say) changes neither the success
    of [hex_to_rgb] nor the tuple it returns. *)
Theorem hex_to_rgb_ignores_tail (s t : string) fs rgb :
  (6 <= String.length (lstrip_hash s))%nat ->
  result (hex_to_rgb (s +:+ t) fs) = inr rgb <-> result (hex_to_rgb s fs) = inr rgb.
Proof.
  intros Hl. unfold hex_to_rgb. rewrite (parse_rgb_ignores_tail s t Hl).
  destruct (parse_rgb s); cbn; split; intros H; first [exact H|discriminate H].
Qed.

(** X4. Whenever [hex_to_rgb] returns, each band lies between -15 and
    255: a slice of two characters may hold a sign and one digit, so a
    band can be negative, and nothing checks that. *)
Theorem hex_to_rgb_bands_range (s : string) fs r g b :
  result (hex_to_rgb s fs) = inr (r, g, b) ->
  -15 <= r <= 255 /\ -15 <= g <= 255 /\ -15 <= b <= 255.
Proof.
  unfold hex_to_rgb. destruct (parse_rgb s) as [[[r' g'] b']|] eqn:E; cbn; [|discriminate].
  intros [= <- <- <-]. exact (parse_rgb_range s r' g' b' E).
Qed.

(** X3. With fewer than five characters left once the leading hash signs
    are stripped, the third slice is empty and [int('', 16)] raises:
    [hex_to_rgb] raises [ValueError] (the three digit notation [#abc] is
    not expanded). *)
Theorem hex_to_rgb_short_raises (s : string) fs :
  (String.length (lstrip_hash s) <= 4)%nat ->
  hex_to_rgb s fs = Outcome (inl (BadColor s)) fs [].
Proof.
  intros Hl. unfold hex_to_rgb, parse_rgb. cbv zeta.
  rewrite (substring_beyond 4 2) by exact Hl.
  destruct (int_base16 (String.substring 0 2 (lstrip_hash s))); [|reflexivity].
  destruct (int_base16 (String.substring 2 2 (lstrip_hash s))); reflexivity.
Qed.

End HexToRgb.

(* ===================================================================== *)
(** ** Further properties: ratios between 0 and 1 *)
(* ===================================================================== *)

Section FloatBounds.

(** The finite double [Fin m e] is at most the integer [N]. *)
Lemma of_int_exact n : 0 <= n < 2 ^ 53 -> of_int n = inr (Fin n 0).
Proof.
  intros Hn. unfold of_int, round_dy.
  destruct (n =? 0) eqn:E0; [apply Z.eqb_eq in E0; subst; reflexivity|].
  apply Z.eqb_neq in E0. rewrite Z.abs_eq by lia.
  assert (Hl : Z.log2 n < 53) by (apply Z.log2_lt_pow2; lia).
  unfold round_pos. cbv zeta.
  assert (Hle : (Z.max (0 + Z.log2 n + 1 - prec) emin <=? 0) = true)
    by (apply Z.leb_le; unfold prec, emin; lia).
  rewrite Hle.
  assert (Hfin : (emax <=? Z.log2 n + 0) = false) by (apply Z.leb_gt; unfold emax; lia).
  rewrite Hfin. rewrite Z.sgn_pos by lia. rewrite Z.mul_1_l. reflexivity.
Qed.

Lemma round_pos_at_most a e N :
  0 < a -> 0 < N < 2 ^ 53 -> at_most N (Fin a e) ->
  at_most N (Fin (round_pos a e).1 (round_pos a e).2).
Proof.
  intros Ha HN Hle. unfold round_pos. cbv zeta.
  set (e' := Z.max (e + Z.log2 a + 1 - prec) emin).
  destruct (e' <=? e) eqn:E; cbn [fst snd]; [exact Hle|].
  apply Z.leb_gt in E. cbn [at_most] in *.
  assert (Hl : Z.log2 a + e < 53).
  { destruct (0 <=? e) eqn:Ee.
    - apply Z.leb_le in Ee.
      assert (Hp : 0 < 2 ^ e) by (apply Z.pow_pos_nonneg; lia).
      assert (Z.log2 (a * 2 ^ e) < 53) by (apply Z.log2_lt_pow2; nia).
      rewrite Z.log2_mul_pow2 in H by lia. lia.
    - apply Z.leb_gt in Ee.
      assert (Hp : 0 < 2 ^ (- e)) by (apply Z.pow_pos_nonneg; lia).
      assert (Z.log2 a < 53 - e); [|lia].
      apply Z.log2_lt_pow2; [lia|].
      replace (53 - e) with (53 + - e) by lia. rewrite Z.pow_add_r by lia. nia. }
  assert (He' : e' <= 0) by (unfold e', prec, emin; lia).
  destruct (0 <=? e) eqn:Ee; [apply Z.leb_le in Ee; lia|]. apply Z.leb_gt in Ee.
  destruct (0 <=? e') eqn:E0.
  - apply Z.leb_le in E0. assert (e' = 0) as -> by lia.
    change (2 ^ 0) with 1. rewrite Z.mul_1_r.
    apply round_shift_exact_le; [lia|lia|].
    replace (0 - e) with (- e) by lia. exact Hle.
  - apply Z.leb_gt in E0.
    apply round_shift_exact_le; [lia|lia|].
    rewrite <- Z.mul_assoc, <- Z.pow_add_r by lia.
    replace (- e' + (e' - e)) with (- e) by lia. exact Hle.
Qed.

Lemma round_dy_at_most m e N :
  0 <= m -> 0 < N < 2 ^ 53 -> at_most N (Fin m e) ->
  exists m' e', round_dy m e = Fin m' e' /\ 0 <= m' /\ at_most N (Fin m' e').
Proof.
  intros Hm HN Hle.
  destruct (Z.eq_dec m 0) as [->|Hm0].
  { exists 0, 0. split; [reflexivity|]. split; [lia|]. cbn. lia. }
  assert (Hmag : m = 0 \/ Z.log2 (Z.abs m) + e < 53).
  { right. rewrite Z.abs_eq by lia. cbn [at_most] in Hle.
    destruct (0 <=? e) eqn:Ee.
    - apply Z.leb_le in Ee.
      assert (Hp : 0 < 2 ^ e) by (apply Z.pow_pos_nonneg; lia).
      assert (Z.log2 (m * 2 ^ e) < 53) by (apply Z.log2_lt_pow2; nia).
      rewrite Z.log2_mul_pow2 in H by lia. lia.
    - apply Z.leb_gt in Ee.
      assert (Hp : 0 < 2 ^ (- e)) by (apply Z.pow_pos_nonneg; lia).
      assert (Z.log2 m < 53 - e); [|lia].
      apply Z.log2_lt_pow2; [lia|].
      replace (53 - e) with (53 + - e) by lia. rewrite Z.pow_add_r by lia. nia. }
  destruct (round_dy_range m e 53 Hmag) as (m' & e' & Hr & _ & Hs & _);
    [unfold emin; lia|unfold emax; lia|].
  exists m', e'. split; [exact Hr|]. split; [apply Hs; exact Hm|].
  pose proof (round_pos_at_most m e N ltac:(lia) HN Hle) as Hrp.
  unfold round_dy in Hr.
  destruct (m =? 0) eqn:E0; [apply Z.eqb_eq in E0; contradiction|].
  rewrite Z.abs_eq in Hr by lia.
  destruct (round_pos m e) as [a' e''] eqn:Er. cbn [fst snd] in Hrp.
  destruct (emax <=? Z.log2 a' + e''); [destruct (m <? 0); discriminate|].
  rewrite Z.sgn_pos in Hr by lia. rewrite Z.mul_1_l in Hr. simplify_eq. exact Hrp.
Qed.

Lemma trunc_at_most m e N : 0 <= m -> at_most N (Fin m e) -> 0 <= trunc m e <= N.
Proof.
  intros Hm Hle. cbn [at_most] in Hle. unfold trunc.
  destruct (0 <=? e) eqn:Ee.
  - apply Z.leb_le in Ee. assert (0 < 2 ^ e) by (apply Z.pow_pos_nonneg; lia). nia.
  - apply Z.leb_gt in Ee.
    assert (Hp : 0 < 2 ^ (- e)) by (apply Z.pow_pos_nonneg; lia).
    rewrite Z.quot_div_nonneg by lia.
    split; [apply Z.div_pos; lia|]. apply Z.div_le_upper_bound; lia.
Qed.

(** [int(n * x)] lies between 0 and [n] for a ratio between 0 and 1. *)
Lemma int_times_unit n x :
  0 <= n < 2 ^ 53 -> unit_ratio x ->
  exists z, int_times n x = inr z /\ 0 <= z <= n.
Proof.
  intros Hn [Hx0 Hx1]. destruct x as [m e| | |]; cbn [nonneg] in Hx0; try contradiction.
  unfold int_times, int_mul. rewrite of_int_exact by exact Hn.
  cbn [mbind conv_bind mret conv_ret fmul]. change (0 + e) with e.
  destruct (Z.eq_dec n 0) as [->|Hn0].
  { exists 0. split; [reflexivity|lia]. }
  destruct (round_dy_at_most (n * m) e n) as (m' & e' & -> & Hm' & Hle); [nia|lia| |].
  - cbn [at_most at_most_one] in *. destruct (0 <=? e) eqn:Ee.
    + apply Z.leb_le in Ee. assert (0 < 2 ^ e) by (apply Z.pow_pos_nonneg; lia). nia.
    + apply Z.leb_gt in Ee. assert (0 < 2 ^ (- e)) by (apply Z.pow_pos_nonneg; lia). nia.
  - cbn [to_int]. eexists. split; [reflexivity|]. apply trunc_at_most; assumption.
Qed.

Lemma at_most_half_one m e : 0 <= m -> at_most_half (Fin m e) -> at_most_one (Fin m e).
Proof.
  intros Hm. cbn [at_most_half at_most_one].
  destruct (0 <=? e) eqn:Ee; [|lia].
  apply Z.leb_le in Ee. assert (0 < 2 ^ e) by (apply Z.pow_pos_nonneg; lia). nia.
Qed.

Lemma half_ratio_unit x : half_ratio x -> unit_ratio x.
Proof.
  intros [H0 H1]. destruct x as [m e| | |]; cbn [nonneg] in H0; try contradiction.
  split; [exact H0|]. apply at_most_half_one; assumption.
Qed.

(** [1 - 2 * x] is a ratio between 0 and 1 when [x] is between 0 and one
    half. *)
Lemma one_minus_twice_unit x :
  half_ratio x -> exists y, one_minus_twice x = inr y /\ unit_ratio y.
Proof.
  intros [H0 H1]. destruct x as [m e| | |]; cbn [nonneg] in H0; try contradiction.
  assert (Hfin : finite_below 1 (Fin m e)).
  { cbn [finite_below]. destruct (Z.eq_dec m 0) as [|Hm0]; [left; assumption|right].
    rewrite Z.abs_eq by lia.
    pose proof (at_most_half_one m e H0 H1) as Ho. cbn [at_most_one] in Ho.
    destruct (0 <=? e) eqn:Ee.
    - apply Z.leb_le in Ee. assert (0 < 2 ^ e) by (apply Z.pow_pos_nonneg; lia).
      assert (m = 1) by nia. assert (e = 0).
      { destruct (Z.eq_dec e 0); [assumption|].
        assert (2 ^ 1 <= 2 ^ e) by (apply Z.pow_le_mono_r; lia). change (2 ^ 1) with 2 in *. nia. }
      subst. cbn. lia.
    - apply Z.leb_gt in Ee.
      assert (Hl : Z.log2 m <= - e); [|lia].
      destruct (Z.eq_dec m (2 ^ (- e))) as [->|Hne].
      + rewrite Z.log2_pow2 by lia. lia.
      + assert (Z.log2 m < - e); [|lia]. apply Z.log2_lt_pow2; lia. }
  destruct (one_minus_twice_range (Fin m e) 1 Hfin) as (y & Ey & _ & Hnn);
    [lia|unfold emax; lia|].
  exists y. split; [exact Ey|]. split; [apply Hnn; exact H1|].
  (* the result is at most one *)
  unfold one_minus_twice, int_mul, int_sub in Ey.
  change (of_int 2) with (inr (B := float) (A := conv_error) (Fin 2 0)) in Ey.
  change (of_int 1) with (inr (B := float) (A := conv_error) (Fin 1 0)) in Ey.
  cbn [mbind conv_bind mret conv_ret fmul] in Ey. change (0 + e) with e in Ey.
  destruct (round_dy_range (2 * m) e 2) as (d & ed & Ed & _ & Hd0 & Hd1).
  { destruct (Z.eq_dec m 0) as [->|Hm0]; [left; reflexivity|right].
    destruct Hfin as [|Hf]; [contradiction|].
    rewrite Z.abs_mul. change (Z.abs 2) with 2. rewrite Z.log2_double by lia. lia. }
  { unfold emin; lia. } { unfold emax; lia. }
  rewrite Ed in Ey. specialize (Hd0 ltac:(lia)). specialize (Hd1 H1).
  cbn [fsub] in Ey. cbv zeta in Ey. injection Ey as <-.
  set (e0 := Z.min 0 ed).
  set (M := 1 * 2 ^ (0 - e0) - d * 2 ^ (ed - e0)).
  assert (He0 : e0 <= 0) by (unfold e0; lia).
  assert (HA : 0 < 2 ^ (- e0)) by (apply Z.pow_pos_nonneg; lia).
  assert (HP : 0 < 2 ^ (ed - e0)) by (apply Z.pow_pos_nonneg; unfold e0; lia).
  assert (HM : 0 <= M <= 2 ^ (- e0)).
  { unfold M. replace (0 - e0) with (- e0) by lia. split; [|nia].
    cbn [at_most_one] in Hd1. destruct (0 <=? ed) eqn:Ed0.
    - apply Z.leb_le in Ed0. replace e0 with 0 in * by (unfold e0; lia).
      replace (ed - 0) with ed by lia. change (2 ^ (- 0)) with 1. lia.
    - apply Z.leb_gt in Ed0. replace e0 with ed in * by (unfold e0; lia).
      replace (ed - ed) with 0 by lia. change (2 ^ 0) with 1. lia. }
  assert (HM1 : at_most_one (Fin M e0)).
  { cbn [at_most_one]. destruct (0 <=? e0) eqn:E0; [|lia].
    apply Z.leb_le in E0. assert (e0 = 0) as Hz by lia.
    rewrite Hz in *. change (2 ^ 0) with 1. change (2 ^ (- 0)) with 1 in HM. lia. }
  destruct (round_dy_range M e0 1) as (y' & ey & -> & _ & _ & Ho).
  - destruct (Z.eq_dec M 0) as [|HM0]; [left; assumption|right].
    rewrite Z.abs_eq by lia.
    assert (Z.log2 M <= - e0); [|lia].
    destruct (Z.eq_dec M (2 ^ (- e0))) as [->|Hne].
    + rewrite Z.log2_pow2 by lia. lia.
    + assert (Z.log2 M < - e0); [|lia]. apply Z.log2_lt_pow2; lia.
  - unfold emin; lia.
  - unfold emax; lia.
  - exact (Ho HM1).
Qed.

End FloatBounds.

(* ===================================================================== *)
(** ** Further properties of the rasterizer run *)
(* ===================================================================== *)

Section Rasterizer.

Variable rsvg : option (option file -> Z -> rsvg_result).


End Rasterizer.

(* ===================================================================== *)
(** ** Further properties of generate_icon and main *)
(* ===================================================================== *)

Section Further.

Variable rsvg : option (option file -> Z -> rsvg_result).
Variable cover : Z -> Z -> Z -> Z -> Z -> Z -> Z -> bool.
Variable kernel : Z -> image -> Z -> Z -> pixel.

(** *** The geometry, the mask and the shadow *)

Lemma gt0_nonneg x : gt0 x = true -> at_most_half x -> half_ratio x.
Proof.
  destruct x as [m e| | |]; cbn [at_most_half]; try contradiction.
  cbn [gt0]. intros Hm Hh. apply Z.ltb_lt in Hm. split; [cbn [nonneg]; lia|exact Hh].
Qed.

(** X7. In range the sizes nest: for a size that is not negative and
    below [2^53], a padding between 0 and one half, a content scale
    between 0 and 1 and a corner padding in use of at most one half, the
    geometry is derived without an exception,
    [0 <= scaled_content_size <= content_size <= rounded_icon_size <= size],
    the offset of the rounded icon lies between 0 and [size] and the
    offset the content is pasted at is not negative: the content fits
    the canvas. *)
Theorem geometry_nests_in_range size kw :
  0 <= size < 2 ^ 53 ->
  half_ratio (padding_ratio kw) ->
  unit_ratio (scale_ratio kw) ->
  corner_padding_fits kw ->
  exists g, derive_geometry size kw = inr g /\
    0 <= scaled_content_size g <= content_size g /\
    content_size g <= rounded_icon_size g /\
    rounded_icon_size g <= size /\
    0 <= rounded_icon_offset g <= size /\
    0 <= (rounded_icon_size g - scaled_content_size g) / 2.
Proof.
  intros Hsz Hp Hs Hfit.
  destruct (one_minus_twice_unit _ Hp) as (mp & Emp & Hmp).
  assert (Hrest : forall a, 0 <= a <= size ->
    exists cs sc, int_times a mp = inr cs /\ int_times cs (scale_ratio kw) = inr sc /\
                  0 <= sc <= cs /\ cs <= a).
  { intros a Ha.
    destruct (int_times_unit a mp ltac:(lia) Hmp) as (cs & Ecs & Hcs).
    destruct (int_times_unit cs (scale_ratio kw) ltac:(lia) Hs) as (sc & Esc & Hsc).
    exists cs, sc. repeat split; auto; lia. }
  unfold derive_geometry, corner_padding_fits in *.
  destruct (add_rounded_corners kw && gt0 (corner_padding_ratio kw)) eqn:Eb.
  - apply andb_prop in Eb as [_ Hgt].
    pose proof (gt0_nonneg _ Hgt (Hfit eq_refl)) as Hcp.
    destruct (one_minus_twice_unit _ Hcp) as (mc & Emc & Hmc).
    destruct (int_times_unit size mc Hsz Hmc) as (a & Ea & Ha).
    destruct (int_times_unit size _ Hsz (half_ratio_unit _ Hcp)) as (b & Eb' & Hb).
    destruct (Hrest a Ha) as (cs & sc & Ecs & Esc & Hsc & Hcs).
    rewrite Emc, Emp. cbn [mbind conv_bind]. rewrite Ea. cbn [mbind conv_bind].
    rewrite Eb'. cbn [mbind conv_bind mret conv_ret]. rewrite Ecs. cbn [mbind conv_bind].
    rewrite Esc. cbn [mbind conv_bind mret conv_ret].
    eexists. split; [reflexivity|].
    cbn [rounded_icon_size rounded_icon_offset content_size scaled_content_size].
    repeat split; try lia. apply Z.div_pos; lia.
  - destruct (Hrest size ltac:(lia)) as (cs & sc & Ecs & Esc & Hsc & Hcs).
    cbn [mbind conv_bind mret conv_ret]. rewrite Emp. cbn [mbind conv_bind].
    rewrite Ecs. cbn [mbind conv_bind]. rewrite Esc. cbn [mbind conv_bind mret conv_ret].
    eexists. split; [reflexivity|].
    cbn [rounded_icon_size rounded_icon_offset content_size scaled_content_size].
    repeat split; try lia. apply Z.div_pos; lia.
Qed.

(** X16. For a shadow opacity between 0 and 1 the shadow rectangle is
    filled with black at an alpha between 0 and 255. *)
Theorem shadow_alpha_is_a_byte svg out size bg kw fs x0 y0 x1 y1 radius fill :
  unit_ratio (shadow_opacity kw) ->
  In (EvRoundedRectangle VShadow x0 y0 x1 y1 radius fill)
     (emitted (generate_icon rsvg cover kernel svg out size bg kw fs)) ->
  exists alpha, fill = (0, 0, 0, alpha) /\ byte alpha.
Proof.
  intros Hop HIn.
  destruct (shadow_fill_follows_opacity rsvg cover kernel svg out size bg kw fs
              x0 y0 x1 y1 radius fill HIn) as (alpha & Ha & ->).
  exists alpha. split; [reflexivity|].
  apply int_times_truncated in Ha.
  destruct (int_times_unit 255 (shadow_opacity kw) ltac:(lia) Hop) as (z & Ez & Hz).
  rewrite Ez in Ha. injection Ha as <-. exact Hz.
Qed.

Lemma length_append (s t : string) :
  String.length (s +:+ t) = (String.length s + String.length t)%nat.
Proof.
  induction s as [|c s IH]; [reflexivity|].
  rewrite append_cons. cbn [String.length]. rewrite IH. reflexivity.
Qed.

Lemma append_inj_r (a b t : string) : (a +:+ t = b +:+ t)%string -> a = b.
Proof.
  revert b. induction a as [|c a IH]; intros b H.
  - destruct b as [|d b]; [reflexivity|].
    apply (f_equal String.length) in H. rewrite !length_append in H.
    cbn [String.length] in H. lia.
  - destruct b as [|d b].
    + apply (f_equal String.length) in H. rewrite !length_append in H.
      cbn [String.length] in H. lia.
    + rewrite !append_cons in H. injection H as -> H. f_equal. apply IH. exact H.
Qed.

(** X8. Two sizes never share a transient file:
    [/tmp/temp_icon_{size}.png] is a different path for every size. *)
Theorem temp_paths_differ size size' : size <> size' -> temp_path size <> temp_path size'.
Proof.
  intros Hne H. apply Hne. unfold temp_path in H. injection H as H.
  change ("" +:+ pretty size +:+ ".png")%string with (pretty size +:+ ".png")%string in H.
  change ("" +:+ pretty size' +:+ ".png")%string with (pretty size' +:+ ".png")%string in H.
  apply append_inj_r in H. apply (inj pretty) in H. exact H.
Qed.


(** *** The outcomes of generate_icon *)

Lemma composite_event_not_save e : composite_event e = true -> is_save e = false.
Proof. intros H. destruct e; try reflexivity; discriminate H. Qed.

Lemma Forall_not_save_composite ev :
  Forall (fun e => composite_event e = true) ev -> Forall (fun e => is_save e = false) ev.
Proof. intros H. eapply Forall_impl; [exact H|]. apply composite_event_not_save. Qed.

Lemma wp_generate_icon_outcome svg out size bg kw fs :
  wp (generate_icon rsvg cover kernel svg out size bg kw) fs (fun r fs' ev =>
    match r with
    | inr true =>
        exists v pre,
          ev = pre ++ [EvSave v out size size; EvRemove (temp_path size)] /\
          Forall (fun e => is_save e = false) pre
    | inr false =>
        (exists n msgs,
           ev = EvRsvg svg (temp_path size) n :: map EvPrint msgs /\ msgs <> [] /\
           (rsvg = None \/
            exists run, rsvg = Some run /\ exit_ok (run (files fs !! svg) n) = false)) /\
        dirs fs' = dirs fs /\
        forall p, p <> temp_path size -> files fs' !! p = files fs !! p
    | inl _ => Forall (fun e => is_save e = false) ev
    end).
Proof.
  unfold generate_icon.
  wp_step. wp_step; [constructor|].
  wp_step. apply wp_convert_svg_to_png.
  - intros Hn. wp_red. cbn [negb]. wp_step.
    split; [|auto]. exists (scaled_content_size g), [MsgRsvgNotFound; MsgInstallHint].
    split; [reflexivity|]. split; [discriminate|auto].
  - intros run Hrun. cbv zeta.
    destruct (exit_ok _) eqn:Ex; wp_red; cbn [negb].
    2:{ wp_step. split.
        - exists (scaled_content_size g), [MsgConvertFailed (stderr (run (files fs !! svg) (scaled_content_size g)))].
          split; [reflexivity|]. split; [discriminate|]. right. eauto.
        - destruct (produced _); cbn [dirs files write_file]; split; auto.
          intros p Hp. apply lookup_insert_ne. congruence. }
    destruct bg as [[r0 g0] b0].
    repeat wp_prim.
    all: try (repeat constructor; fail).
    all: eapply wp_mono;
      [apply wp_round_and_composite_dims; cbn [width height paste new]; auto;
       intros Hc; eapply derive_geometry_unrounded; eauto|].
    all: cbv beta; intros r fs1 ev (-> & Hns & Hdim).
    all: apply Forall_not_save_composite in Hns.
    all: destruct r as [e|[v icon]]; wp_red.
    all: try (repeat (apply Forall_cons; split; [reflexivity|]); exact Hns).
    all: destruct (Hdim v icon eq_refl) as [Hw Hh].
    all: repeat wp_prim.
    all: try (repeat (apply Forall_cons; split; [reflexivity|]);
              apply Forall_app_2; [exact Hns|repeat constructor]; fail).
    + exfalso. unfold write_file in *. cbn [files] in *.
      destruct (decide (temp_path size = out)) as [<-|Hne].
      * rewrite lookup_insert_eq in *. discriminate.
      * rewrite lookup_insert_ne in * by congruence. congruence.
    + rewrite Hw, Hh. exists v. eexists (_ :: _ :: _ :: _ :: ev).
      split; [reflexivity|].
      repeat (apply Forall_cons; split; [reflexivity|]). exact Hns.
Qed.

(** X9. A call of [generate_icon] that returns [False] has run the
    rasterizer, printed at least one error line and done nothing else: no
    image is allocated and none is saved; the rasterizer was missing or
    exited with a nonzero status; the directories and every file other
    than the transient one are as before. *)
Theorem failed_size_writes_nothing svg out size bg kw fs :
  let o := generate_icon rsvg cover kernel svg out size bg kw fs in
  result o = inr false ->
  (exists n msgs,
     emitted o = EvRsvg svg (temp_path size) n :: map EvPrint msgs /\ msgs <> [] /\
     (rsvg = None \/
      exists run, rsvg = Some run /\ exit_ok (run (files fs !! svg) n) = false)) /\
  dirs (final o) = dirs fs /\
  forall p, p <> temp_path size -> files (final o) !! p = files fs !! p.
Proof.
  intros o Hres.
  pose proof (wp_generate_icon_outcome svg out size bg kw fs) as H.
  unfold wp in H. fold o in H. rewrite Hres in H. exact H.
Qed.

(** X10. The output is saved exactly in the calls that return [True]:
    such a call ends with the save of a [size] by [size] image at the
    output path followed by the removal of the transient file, and saves
    nothing before; a call that returns [False] or raises has saved
    nothing. In particular nothing fails once the output is saved. *)
Theorem output_saved_last svg out size bg kw fs :
  let o := generate_icon rsvg cover kernel svg out size bg kw fs in
  (result o = inr true ->
     exists v pre,
       emitted o = pre ++ [EvSave v out size size; EvRemove (temp_path size)] /\
       Forall (fun e => is_save e = false) pre) /\
  (result o <> inr true -> Forall (fun e => is_save e = false) (emitted o)).
Proof.
  intros o.
  pose proof (wp_generate_icon_outcome svg out size bg kw fs) as H.
  unfold wp in H. fold o in H.
  destruct (result o) as [e|[|]]; split; try congruence; intros _.
  destruct H as ((n & msgs & -> & _) & _).
  apply Forall_cons; split; [reflexivity|].
  apply Forall_forall. intros e He. apply list_elem_of_fmap in He as (m & -> & _). reflexivity.
Qed.

(** X11. [generate_icon] writes to two paths only: every file other
    than its transient file and its output file is left as it was, and
    so is every directory. *)
Theorem generate_icon_touches_two_paths svg out size bg kw fs p :
  let o := generate_icon rsvg cover kernel svg out size bg kw fs in
  p <> temp_path size -> p <> out ->
  files (final o) !! p = files fs !! p /\ dirs (final o) = dirs fs.
Proof.
  intros o H1 H2.
  pose proof (wp_generate_icon_frame rsvg cover kernel svg out size bg kw fs) as [Hd Hf].
  split; [apply Hf; assumption|exact Hd].
Qed.

(** X12. When the rounded size is negative (a corner padding above one
    half), the rasterizer is run all the same, and with a run that exits
    with status 0 the call then raises the [ValueError] of [Image.new]:
    no other event follows the rasterizer run, the raster it produced
    stays at the transient path and every other file is as before. *)
Theorem negative_canvas_raises svg out size bg kw fs run g :
  rsvg = Some run ->
  derive_geometry size kw = inr g ->
  rounded_icon_size g < 0 ->
  exit_ok (run (files fs !! svg) (scaled_content_size g)) = true ->
  let o := generate_icon rsvg cover kernel svg out size bg kw fs in
  result o = inl (BadSize (rounded_icon_size g) (rounded_icon_size g)) /\
  emitted o = [EvRsvg svg (temp_path size) (scaled_content_size g)] /\
  files (final o) !! temp_path size =
    match produced (run (files fs !! svg) (scaled_content_size g)) with
    | Some im => Some (Png im)
    | None => files fs !! temp_path size
    end /\
  forall p, p <> temp_path size -> files (final o) !! p = files fs !! p.
Proof.
  intros Hr Hg Hneg Hx.
  change (wp (generate_icon rsvg cover kernel svg out size bg kw) fs (fun r fs' ev =>
    r = inl (BadSize (rounded_icon_size g) (rounded_icon_size g)) /\
    ev = [EvRsvg svg (temp_path size) (scaled_content_size g)] /\
    files fs' !! temp_path size =
      match produced (run (files fs !! svg) (scaled_content_size g)) with
      | Some im => Some (Png im)
      | None => files fs !! temp_path size
      end /\
    forall p, p <> temp_path size -> files fs' !! p = files fs !! p)).
  unfold generate_icon. wp_step. rewrite Hg. apply wp_lift_conv. wp_red.
  wp_step. apply wp_convert_svg_to_png; [rewrite Hr; discriminate|].
  intros run' Hr'. rewrite Hr in Hr'. injection Hr' as <-. cbv zeta.
  rewrite Hx. wp_red. cbn [negb].
  destruct bg as [[r0 g0] b0].
  wp_step. apply wp_image_new; [intros _|intros ?; lia]. wp_red.
  split; [reflexivity|]. split; [reflexivity|].
  destruct (produced _); cbn [files write_file].
  - split; [apply lookup_insert_eq|]. intros p Hp. apply lookup_insert_ne. congruence.
  - auto.
Qed.

Lemma bind_ext {A B} (c : M A) (k k' : A -> M B) fs :
  (forall a fs', k a fs' = k' a fs') -> (c ≫= k) fs = (c ≫= k') fs.
Proof.
  intros H. unfold mbind, M_bind, bind.
  destruct (c fs) as [[e|a] fs1 ev1]; [reflexivity|]. rewrite H. reflexivity.
Qed.

Lemma bind_cong_l {A B} (c c' : M A) (k : A -> M B) fs :
  c fs = c' fs -> (c ≫= k) fs = (c' ≫= k) fs.
Proof. intros H. unfold mbind, M_bind, bind. rewrite H. reflexivity. Qed.

Lemma derive_geometry_square size kw kw' :
  add_rounded_corners kw = false -> add_rounded_corners kw' = false ->
  padding_ratio kw = padding_ratio kw' -> scale_ratio kw = scale_ratio kw' ->
  derive_geometry size kw = derive_geometry size kw'.
Proof.
  intros H1 H2 Hp Hs. unfold derive_geometry. rewrite H1, H2, Hp, Hs. reflexivity.
Qed.

(** X13. Without rounded corners the corner padding and the four shadow
    options are not looked at: two calls that agree on the padding and
    the content scale and both ask for no rounded corners have the same
    result, leave the same files and emit the same events. *)
Theorem square_icon_ignores_rounding_options svg out size bg kw kw' fs :
  add_rounded_corners kw = false -> add_rounded_corners kw' = false ->
  padding_ratio kw = padding_ratio kw' -> scale_ratio kw = scale_ratio kw' ->
  generate_icon rsvg cover kernel svg out size bg kw fs =
  generate_icon rsvg cover kernel svg out size bg kw' fs.
Proof.
  intros H1 H2 Hp Hs. unfold generate_icon.
  rewrite (derive_geometry_square size kw kw' H1 H2 Hp Hs).
  apply bind_ext. intros g fs1. cbv zeta.
  apply bind_ext. intros converted fs2.
  destruct (negb converted); [reflexivity|].
  destruct bg as [[r0 g0] b0].
  apply bind_ext. intros icon fs3.
  apply bind_ext. intros content fs4.
  apply bind_ext. intros icon' fs5.
  apply bind_cong_l.
  rewrite !round_and_composite_square by assumption. reflexivity.
Qed.

(** *** The pixels of a rounded icon *)

Lemma div255_times_255 s : byte s -> div255 (s * 255) = s.
Proof.
  intros Hs.
  assert (Hall : forallb (fun n => div255 (Z.of_nat n * 255) =? Z.of_nat n) (seq 0 256) = true)
    by (vm_compute; reflexivity).
  rewrite forallb_forall in Hall.
  specialize (Hall (Z.to_nat s) ltac:(apply in_seq; unfold byte in Hs; lia)).
  rewrite Z2Nat.id in Hall by (unfold byte in Hs; lia).
  apply Z.eqb_eq in Hall. exact Hall.
Qed.

Lemma blend_opaque_mask d s : byte s -> blend 255 d s = s.
Proof.
  intros Hs. unfold blend. change (255 - 255) with 0.
  rewrite Z.mul_0_r, Z.add_0_l. apply div255_times_255. exact Hs.
Qed.

Lemma blend_clear_mask s : blend 0 0 s = 0.
Proof. unfold blend. rewrite Z.mul_0_r. reflexivity. Qed.

Lemma div255_byte a : 0 <= a <= 255 * 255 -> byte (div255 a).
Proof.
  intros Ha. unfold byte, div255. cbv zeta.
  rewrite !Z.shiftr_div_pow2 by lia. change (2 ^ 8) with 256.
  assert (H1 : 0 <= (a + 128) / 256 < 255).
  { split; [apply Z.div_pos; lia|apply Z.div_lt_upper_bound; lia]. }
  set (q := (a + 128) / 256) in *. clearbody q.
  assert (H2 : (q + (a + 128)) / 256 < 256) by (apply Z.div_lt_upper_bound; lia).
  split; [apply Z.div_pos; lia|lia].
Qed.

Lemma blend_byte m d s : byte m -> byte d -> byte s -> byte (blend m d s).
Proof.
  unfold byte. intros Hm Hd Hs. unfold blend. apply div255_byte. nia.
Qed.

Lemma convert_rgba_bytes c : byte_image c -> byte_image (convert_rgba c).
Proof.
  intros Hc. unfold convert_rgba. destruct (im_mode c); [|exact Hc].
  intros x y. destruct (Hc x y) as (Hr & _). cbn [px]. unfold byte_pixel.
  cbn [band_r band_g band_b band_a]. unfold byte in *. repeat split; lia.
Qed.

Lemma background_composite_bytes g bg c :
  byte_colour bg -> byte_image c -> byte_image (background_composite g bg c).
Proof.
  intros Hbg Hc. destruct bg as [[r0 g0] b0]. destruct Hbg as (Hr & Hg & Hb).
  cbn [fst snd] in *.
  pose proof (convert_rgba_bytes c Hc) as Hcc.
  unfold background_composite. cbv zeta. intros x y. cbn [px paste new].
  destruct (inside _ _ _).
  - unfold mask_value. rewrite im_mode_convert_rgba.
    destruct (Hcc (x - (rounded_icon_size g - scaled_content_size g) / 2)
                  (y - (rounded_icon_size g - scaled_content_size g) / 2)) as (H1 & H2 & H3 & H4).
    unfold byte_pixel, blend_pixel. cbn [band_r band_g band_b band_a].
    repeat split; apply blend_byte; auto. all: unfold byte; cbn; lia.
  - unfold byte_pixel. cbn [band_r band_g band_b band_a]. unfold byte in *. repeat split; lia.
Qed.

(** The rounded canvas of step 4: the canvas of step 3 with the mask as
    its alpha band. *)
Lemma rounded_output_px g icon radius x y :
  width icon = rounded_icon_size g -> height icon = rounded_icon_size g ->
  let rs := rounded_icon_size g in
  let ro := putalpha (paste (new RGBA rs rs transparent) icon 0 0 None)
              (rounded_rectangle cover (new L rs rs (0, 0, 0, 0)) 0 0 rs rs radius
                 (255, 0, 0, 0)) in
  im_mode ro = RGBA /\
  inside ro x y = (0 <=? x) && (x <? rs) && (0 <=? y) && (y <? rs) /\
  (in_mask cover g radius x y = true -> px ro x y = opaque (px icon x y)) /\
  (in_mask cover g radius x y = false -> band_a (px ro x y) = 0).
Proof.
  intros Hw Hh rs ro. split; [reflexivity|]. split; [reflexivity|].
  unfold in_mask. fold rs.
  cbn [px ro putalpha paste rounded_rectangle new mask_value im_mode band_r].
  rewrite !Z.sub_0_r. unfold inside. cbn [width height new]. rewrite Hw, Hh. fold rs.
  destruct ((0 <=? x) && (x <? rs) && (0 <=? y) && (y <? rs)) eqn:Ein.
  - cbn [andb]. destruct (px icon x y) as [[[r0 g0] b0] a0].
    destruct (cover 0 0 rs rs radius x y); split; intros; try discriminate; reflexivity.
  - cbn [andb]. split; [discriminate|reflexivity].
Qed.

Lemma blend_pixel_opaque_mask d p :
  byte_pixel p -> blend_pixel 255 d (opaque p) = opaque p.
Proof.
  intros (Hr & Hg & Hb & _). unfold blend_pixel, opaque.
  cbn [band_r band_g band_b band_a].
  rewrite !blend_opaque_mask by (first [assumption|unfold byte; lia]). reflexivity.
Qed.

Lemma wp_round_and_composite_pixels size g kw icon fs :
  add_rounded_corners kw = true ->
  width icon = rounded_icon_size g -> height icon = rounded_icon_size g ->
  (add_rounded_corners kw && gt0 (corner_padding_ratio kw) = false ->
   rounded_icon_offset g = 0) ->
  wp (round_and_composite cover kernel size g kw icon) fs (fun r _ _ =>
    forall v im, r = inr (v, im) ->
    forall radius, int_times (rounded_icon_size g) default_radius_ratio = inr radius ->
    forall X Y,
      let x := X - rounded_icon_offset g in
      let y := Y - rounded_icon_offset g in
      (in_mask cover g radius x y = true -> byte_pixel (px icon x y) ->
       px im X Y = opaque (px icon x y)) /\
      (add_shadow kw = false -> in_mask cover g radius x y = false ->
       band_a (px im X Y) = 0)).
Proof.
  intros Hrc Hw Hh Hofs.
  unfold round_and_composite, add_shadow_layer, create_rounded_rectangle_mask.
  rewrite Hrc in *. cbn [andb] in Hofs.
  repeat wp_prim.
  all: try (intros ? ? [=]; fail).
  all: intros v im Heq radius Hrad X Y; simplify_eq.
  all: destruct (rounded_output_px g icon radius (X - rounded_icon_offset g)
                   (Y - rounded_icon_offset g) Hw Hh) as (Hmode & Hins & Hin & Hout).
  all: cbv zeta in Hmode, Hins, Hin, Hout.
  all: set (ro := putalpha _ _) in *; clearbody ro.
  4:{ (* the rounded canvas is the result *)
      apply orb_false_iff in Hif as [Hgt _].
      rewrite (Hofs Hgt), !Z.sub_0_r in *. split; [auto|]. intros _. exact Hout. }
  all: cbn [px paste]; unfold mask_value; rewrite Hmode.
  all: split;
    [intros Hm Hb;
     assert (Hi : inside ro (X - rounded_icon_offset g) (Y - rounded_icon_offset g) = true)
       by (rewrite Hins; unfold in_mask in Hm; apply andb_prop in Hm as [Hm _]; exact Hm);
     rewrite Hi, (Hin Hm); cbn [band_a opaque];
     apply blend_pixel_opaque_mask; exact Hb
    |intros Hns Hm; try discriminate Hns].
  rewrite (Hout Hm). destruct (inside ro _ _); [|reflexivity].
  cbn [px new]. unfold blend_pixel. cbn [band_a transparent]. apply blend_clear_mask.
Qed.

Lemma wp_generate_icon_rounded svg out size bg kw fs run g c radius :
  add_rounded_corners kw = true ->
  rsvg = Some run ->
  derive_geometry size kw = inr g ->
  produced (run (files fs !! svg) (scaled_content_size g)) = Some c ->
  int_times (rounded_icon_size g) default_radius_ratio = inr radius ->
  out <> temp_path size ->
  wp (generate_icon rsvg cover kernel svg out size bg kw) fs (fun r fs' ev =>
    r = inr true ->
    exists im, files fs' !! out = Some (Png im) /\
      width im = size /\ height im = size /\
      forall X Y,
        let x := X - rounded_icon_offset g in
        let y := Y - rounded_icon_offset g in
        let p := px (background_composite g bg c) x y in
        (in_mask cover g radius x y = true -> byte_pixel p -> px im X Y = opaque p) /\
        (add_shadow kw = false -> in_mask cover g radius x y = false ->
         band_a (px im X Y) = 0)).
Proof.
  intros Hrc Hr Hg Hp Hrad Hne.
  unfold generate_icon. wp_step. rewrite Hg. apply wp_lift_conv. wp_red.
  wp_step. apply wp_convert_svg_to_png; [rewrite Hr; discriminate|].
  intros run' Hr'. rewrite Hr in Hr'. injection Hr' as <-. cbv zeta.
  rewrite Hp.
  destruct (exit_ok _); wp_red; cbn [negb]; [|wp_step; discriminate].
  destruct bg as [[r0 g0] b0].
  repeat wp_prim; try discriminate.
  all: match goal with
       | H : files (write_file _ _ _) !! _ = _ |- _ =>
           unfold write_file in H; cbn [files] in H;
           rewrite lookup_insert_eq in H; simplify_eq
       end.
  eapply wp_mono;
    [apply wp_conj;
     [apply wp_round_and_composite_dims; cbn [width height paste new]; auto;
      intros Hc; eapply derive_geometry_unrounded; eauto
     |apply wp_round_and_composite_pixels; cbn [width height paste new]; auto;
      intros Hc; eapply derive_geometry_unrounded; eauto]|].
  cbv beta. intros r fs1 ev ((-> & _ & Hdim) & Hpx).
  destruct r as [e|[v icon]]; wp_red; [discriminate|].
  repeat wp_prim; try discriminate.
  intros _. exists icon. split.
  - unfold remove_file, write_file. cbn [files].
    rewrite lookup_delete_ne by congruence. apply lookup_insert_eq.
  - destruct (Hdim v icon eq_refl) as [Hw Hh]. split; [exact Hw|]. split; [exact Hh|].
    intros X Y. exact (Hpx v icon eq_refl radius Hrad X Y).
Qed.

(** X14. The icon hides its shadow: in a call with rounded corners that
    returns [True], on a raster and a background colour whose bands are
    bytes, the saved image is [size] by [size] and its pixel at [(X, Y)],
    when the mask covers [(X, Y)] moved back by the offset of the rounded
    icon, is the pixel of the canvas of step 3 there, fully opaque,
    whether a shadow was asked for or not. *)
Theorem icon_occludes_shadow svg out size bg kw fs run g c radius X Y :
  add_rounded_corners kw = true ->
  rsvg = Some run ->
  derive_geometry size kw = inr g ->
  produced (run (files fs !! svg) (scaled_content_size g)) = Some c ->
  int_times (rounded_icon_size g) default_radius_ratio = inr radius ->
  out <> temp_path size ->
  byte_colour bg -> byte_image c ->
  let o := generate_icon rsvg cover kernel svg out size bg kw fs in
  result o = inr true ->
  let x := X - rounded_icon_offset g in
  let y := Y - rounded_icon_offset g in
  in_mask cover g radius x y = true ->
  exists im, files (final o) !! out = Some (Png im) /\
    width im = size /\ height im = size /\
    px im X Y = opaque (px (background_composite g bg c) x y).
Proof.
  intros Hrc Hr Hg Hp Hrad Hne Hbg Hc o Hres x y Hm.
  destruct (wp_generate_icon_rounded svg out size bg kw fs run g c radius
              Hrc Hr Hg Hp Hrad Hne Hres) as (im & Him & Hw & Hh & Hpx).
  exists im. split; [exact Him|]. split; [exact Hw|]. split; [exact Hh|].
  apply (Hpx X Y); [exact Hm|]. apply background_composite_bytes; assumption.
Qed.

(** X15. Without a shadow, a pixel of the saved image that the rounded
    rectangle of the mask does not cover is fully transparent: its alpha
    is 0, inside the rounded canvas as in the margin the corner padding
    leaves around it. *)
Theorem rounded_corners_are_transparent svg out size bg kw fs run g c radius X Y :
  add_rounded_corners kw = true ->
  add_shadow kw = false ->
  rsvg = Some run ->
  derive_geometry size kw = inr g ->
  produced (run (files fs !! svg) (scaled_content_size g)) = Some c ->
  int_times (rounded_icon_size g) default_radius_ratio = inr radius ->
  out <> temp_path size ->
  let o := generate_icon rsvg cover kernel svg out size bg kw fs in
  result o = inr true ->
  in_mask cover g radius (X - rounded_icon_offset g) (Y - rounded_icon_offset g) = false ->
  exists im, files (final o) !! out = Some (Png im) /\
    width im = size /\ height im = size /\ band_a (px im X Y) = 0.
Proof.
  intros Hrc Hns Hr Hg Hp Hrad Hne o Hres Hm.
  destruct (wp_generate_icon_rounded svg out size bg kw fs run g c radius
              Hrc Hr Hg Hp Hrad Hne Hres) as (im & Him & Hw & Hh & Hpx).
  exists im. split; [exact Him|]. split; [exact Hw|]. split; [exact Hh|].
  apply (Hpx X Y); assumption.
Qed.

(** *** Runs of main *)

(** X17. With its source in place and a colour that does not parse,
    [main] ends on the [ValueError] of [hex_to_rgb] with exit status 1:
    the output directory has been created already (line 235 comes before
    line 238), nothing has been printed, no rasterizer has run and no
    file has changed. *)
Theorem main_rejects_colour_after_mkdir c fs :
  exists_file fs (cli_svg_file c) = true ->
  parse_rgb (color (parse_args c)) = None ->
  let o := main rsvg cover kernel c fs in
  result o = inl (BadColor (color (parse_args c))) /\
  exit_status o = 1 /\
  final o = make_dir (output_dir (parse_args c)) fs /\
  emitted o = [EvMkdir (output_dir (parse_args c))].
Proof.
  intros Hex Hbad.
  change (wp (main rsvg cover kernel c) fs (fun r fs' ev =>
    r = inl (BadColor (color (parse_args c))) /\
    match r with inr _ => 0 | inl (SystemExit code) => code | inl _ => 1 end = 1 /\
    fs' = make_dir (output_dir (parse_args c)) fs /\
    ev = [EvMkdir (output_dir (parse_args c))])).
  unfold main. cbv zeta. set (args := parse_args c) in *.
  change (cli_svg_file c) with (svg_file args) in Hex.
  wp_step. wp_step. wp_step. rewrite Hex. repeat wp_step.
  unfold hex_to_rgb. rewrite Hbad. repeat wp_step. auto.
Qed.

(** X18. A run of [main] changes no file other than the transient files
    and the output files of the nineteen entries: any other path, the
    source when it is none of these, holds after the run what it held
    before, however the run ends. *)
Theorem main_touches_icon_paths_only c fs p :
  Forall (fun sf : Z * string =>
            p <> temp_path sf.1 /\ p <> (output_dir (parse_args c), sf.2)) ICON_SIZES ->
  let o := main rsvg cover kernel c fs in
  files (final o) !! p = files fs !! p.
Proof.
  intros Hp.
  change (wp (main rsvg cover kernel c) fs (fun r fs' ev =>
    files fs' !! p = files fs !! p)).
  unfold main. cbv zeta. set (args := parse_args c) in *.
  wp_step. wp_step. wp_step. wp_step.
  2:{ repeat wp_step. reflexivity. }
  repeat wp_step.
  unfold hex_to_rgb. destruct (parse_rgb (color args)) as [bg|] eqn:Hbg.
  2:{ repeat wp_step. reflexivity. }
  repeat wp_step.
  all: eapply wp_mono; [apply wp_generate_all_frame|].
  all: cbv beta; intros r fs1 ev [Hd Hf].
  all: destruct r; wp_red; repeat wp_step.
  all: rewrite (Hf p Hp); reflexivity.
Qed.

Lemma filter_none {A} (P : A -> bool) l :
  Forall (fun a => P a = false) l -> List.filter P l = [].
Proof.
  induction 1 as [|a l Ha _ IH]; [reflexivity|].
  cbn [List.filter]. rewrite Ha. exact IH.
Qed.

Lemma quiet_filters ev :
  Forall quiet ev ->
  List.filter is_ok ev = [] /\ List.filter is_failed ev = [] /\ List.filter is_tally ev = [].
Proof.
  intros H. repeat split; apply filter_none; eapply Forall_impl; try exact H;
    intros e (H1 & H2 & H3 & H4); assumption.
Qed.

Lemma quiet_not_announced ev : Forall quiet ev -> omap announced ev = [].
Proof.
  intros H. apply omap_announced_none. eapply Forall_impl; [exact H|].
  intros e (_ & _ & _ & H4). exact H4.
Qed.

Lemma composite_event_quiet e : composite_event e = true -> quiet e.
Proof. intros H. destruct e; try discriminate H; repeat split. Qed.

Lemma wp_round_and_composite_quiet size g kw icon fs :
  wp (round_and_composite cover kernel size g kw icon) fs (fun _ _ ev => Forall quiet ev).
Proof.
  unfold round_and_composite, add_shadow_layer, create_rounded_rectangle_mask.
  repeat wp_prim.
  all: repeat constructor.
Qed.

Lemma wp_generate_icon_quiet svg out size bg kw fs :
  wp (generate_icon rsvg cover kernel svg out size bg kw) fs (fun _ _ ev => Forall quiet ev).
Proof.
  unfold generate_icon.
  wp_step. wp_step; [constructor|].
  wp_step. apply wp_convert_svg_to_png.
  - intros _. wp_red. cbn [negb]. wp_step. repeat constructor.
  - intros run _. cbv zeta.
    destruct (exit_ok _); wp_red; cbn [negb]; [|wp_step; repeat constructor].
    destruct bg as [[r0 g0] b0].
    repeat wp_prim.
    all: try (repeat constructor; fail).
    all: eapply wp_mono; [apply wp_round_and_composite_quiet|].
    all: cbv beta; intros r fs1 ev Hq.
    all: destruct r as [e|[v icon]]; wp_red.
    all: try (repeat (apply Forall_cons; split; [repeat split|]); exact Hq).
    all: repeat wp_prim.
    all: repeat (apply Forall_cons; split; [repeat split|]).
    all: apply Forall_app_2; [exact Hq|repeat constructor].
Qed.

Lemma saves_of_outcome (r : exn + bool) svg out size ev :
  match r with
  | inr true =>
      exists v pre,
        ev = pre ++ [EvSave v out size size; EvRemove (temp_path size)] /\
        Forall (fun e => is_save e = false) pre
  | inr false =>
      exists n msgs, ev = EvRsvg svg (temp_path size) n :: map EvPrint msgs
  | inl _ => True
  end ->
  forall b, r = inr b ->
  length (List.filter is_save ev) = if b then 1%nat else 0%nat.
Proof.
  intros H b ->. destruct b.
  - destruct H as (v & pre & -> & Hpre).
    rewrite List.filter_app, (filter_none _ _ Hpre). reflexivity.
  - destruct H as (n & msgs & ->). cbn [List.filter is_save].
    rewrite filter_none; [reflexivity|].
    apply Forall_forall. intros e He. apply list_elem_of_fmap in He as (m & -> & _). reflexivity.
Qed.

Lemma wp_generate_all_tally args bg specs cnt fs :
  wp (generate_all rsvg cover kernel args bg specs cnt) fs (fun r _ ev =>
    List.filter is_tally ev = [] /\
    forall k, r = inr k ->
      k = cnt + Z.of_nat (length (List.filter is_save ev)) /\
      length (List.filter is_ok ev) = length (List.filter is_save ev) /\
      (length (List.filter is_ok ev) + length (List.filter is_failed ev))%nat = length specs).
Proof.
  revert cnt fs. induction specs as [|[size filename] specs IH]; intros cnt fs.
  - cbn [generate_all]. wp_step. split; [reflexivity|]. intros k [= <-]. cbn. lia.
  - cbn [generate_all]. cbv zeta. repeat wp_step.
    eapply wp_mono;
      [apply wp_conj; [apply wp_generate_icon_outcome|apply wp_generate_icon_quiet]|].
    cbv beta. intros r fs1 ev [Hout Hq].
    destruct (quiet_filters ev Hq) as (Hok & Hfl & Htl).
    assert (Hsv : forall b, r = inr b ->
              length (List.filter is_save ev) = if b then 1%nat else 0%nat).
    { apply (saves_of_outcome r (svg_file args) (output_dir args, filename) size).
      destruct r as [e|[|]]; [exact I|exact Hout|].
      destruct Hout as ((n & msgs & -> & _) & _). eauto. }
    destruct r as [e|b]; wp_red.
    { cbn [List.filter is_tally]. rewrite Htl. split; [reflexivity|]. discriminate. }
    specialize (Hsv b eq_refl).
    destruct b; repeat wp_step.
    all: eapply wp_mono; [apply IH|].
    all: cbv beta; intros r2 fs2 ev2 (Htl2 & Hk).
    all: cbn [List.filter is_tally is_ok is_failed is_save].
    all: rewrite !List.filter_app; cbn [List.filter is_tally is_ok is_failed is_save].
    all: rewrite Hok, Hfl, Htl, Htl2.
    all: split; [reflexivity|].
    all: intros k ->; destruct (Hk k eq_refl) as (H1 & H2 & H3).
    all: cbn [app length]; rewrite !List.length_app; cbn [length].
    all: repeat split; lia.
Qed.

(** X20. The tally tells the truth: when [main] returns it has printed
    exactly one tally line, [k/19] with [k] the number of images saved,
    as many success marks as images saved, and success and failure marks
    for all nineteen sizes together; when [main] ends on an exception no
    tally is printed. *)
Theorem tally_counts_saved_icons c fs :
  let o := main rsvg cover kernel c fs in
  let saved := length (List.filter is_save (emitted o)) in
  match result o with
  | inr _ =>
      List.filter is_tally (emitted o) = [EvPrint (MsgDone (Z.of_nat saved) 19)] /\
      length (List.filter is_ok (emitted o)) = saved /\
      (saved + length (List.filter is_failed (emitted o)))%nat = 19%nat
  | inl _ => List.filter is_tally (emitted o) = []
  end.
Proof.
  change (wp (main rsvg cover kernel c) fs (fun r _ ev =>
    let saved := length (List.filter is_save ev) in
    match r with
    | inr _ =>
        List.filter is_tally ev = [EvPrint (MsgDone (Z.of_nat saved) 19)] /\
        length (List.filter is_ok ev) = saved /\
        (saved + length (List.filter is_failed ev))%nat = 19%nat
    | inl _ => List.filter is_tally ev = []
    end)).
  unfold main. cbv zeta. set (args := parse_args c) in *.
  wp_step. wp_step. wp_step. wp_step.
  2:{ repeat wp_step. reflexivity. }
  repeat wp_step.
  unfold hex_to_rgb. destruct (parse_rgb (color args)) as [bg|] eqn:Hbg.
  2:{ repeat wp_step. reflexivity. }
  repeat wp_step.
  all: eapply wp_mono; [apply wp_generate_all_tally|].
  all: cbv beta; intros r fs1 ev (Htl & Hk).
  all: destruct r as [e|k]; wp_red; repeat wp_step.
  all: cbn [List.filter is_tally is_ok is_failed is_save].
  all: rewrite ?List.filter_app; cbn [List.filter is_tally is_ok is_failed is_save].
  all: rewrite ?Htl; try reflexivity.
  all: destruct (Hk k eq_refl) as (H1 & H2 & H3).
  all: rewrite !app_nil_r.
  all: change (Z.of_nat (length ICON_SIZES)) with 19.
  all: change (length ICON_SIZES) with 19%nat in H3.
  all: split; [rewrite H1; reflexivity|split; lia].
Qed.

Lemma wp_generate_all_order args bg specs cnt fs :
  wp (generate_all rsvg cover kernel args bg specs cnt) fs (fun r _ ev =>
    exists done rest,
      specs = done ++ rest /\ omap announced ev = done /\
      match r with
      | inr _ => rest = []
      | inl _ => done <> []
      end).
Proof.
  revert cnt fs. induction specs as [|[size filename] specs IH]; intros cnt fs.
  - cbn [generate_all]. wp_step. exists [], []. auto.
  - cbn [generate_all]. cbv zeta. repeat wp_step.
    eapply wp_mono; [apply wp_generate_icon_quiet|].
    cbv beta. intros r fs1 ev Hq.
    pose proof (quiet_not_announced ev Hq) as Hno.
    destruct r as [e|b]; wp_red.
    { exists [(size, filename)], specs. split; [reflexivity|].
      cbn [omap list_omap announced]. rewrite Hno. split; [reflexivity|discriminate]. }
    destruct b; repeat wp_step.
    all: eapply wp_mono; [apply IH|].
    all: cbv beta; intros r2 fs2 ev2 (done & rest & -> & Hdone & Hr).
    all: exists ((size, filename) :: done), rest.
    all: split; [reflexivity|].
    all: cbn [omap list_omap announced app].
    all: rewrite !omap_app, Hno; cbn [omap list_omap announced app]; rewrite Hdone.
    all: split; [reflexivity|].
    all: destruct r2; [discriminate|exact Hr].
Qed.

(** X19. The sizes are taken in the order of the table and an exception
    ends the run: the sizes [main] has announced are always a leading
    part of [ICON_SIZES], and the whole of it when [main] returns. *)
Theorem main_stops_at_first_exception c fs :
  let o := main rsvg cover kernel c fs in
  exists done rest,
    ICON_SIZES = done ++ rest /\
    omap announced (emitted o) = done /\
    (forall u, result o = inr u -> rest = []).
Proof.
  change (wp (main rsvg cover kernel c) fs (fun r _ ev =>
    exists done rest,
      ICON_SIZES = done ++ rest /\ omap announced ev = done /\
      (forall u, r = inr u -> rest = []))).
  unfold main. cbv zeta. set (args := parse_args c) in *.
  wp_step. wp_step. wp_step. wp_step.
  2:{ repeat wp_step. exists [], ICON_SIZES. repeat split. discriminate. }
  repeat wp_step.
  unfold hex_to_rgb. destruct (parse_rgb (color args)) as [bg|] eqn:Hbg.
  2:{ repeat wp_step. exists [], ICON_SIZES. repeat split. discriminate. }
  repeat wp_step.
  all: eapply wp_mono; [apply wp_generate_all_order|].
  all: cbv beta; intros r fs1 ev (done & rest & Hsplit & Hdone & Hr).
  all: destruct r as [e|k]; wp_red; repeat wp_step.
  all: exists done, rest; split; [exact Hsplit|].
  all: cbn [omap list_omap announced app].
  all: rewrite ?omap_app; cbn [omap list_omap announced app].
  all: rewrite ?app_nil_r; split; [exact Hdone|].
  all: first [discriminate|intros _ _; exact Hr].
Qed.





End Further.

(* ===================================================================== *)
(** ** The further properties on the concrete worlds *)
(* ===================================================================== *)

Lemma hex_to_rgb_reads_notation_witness :
  hex_to_rgb "#71CAEE" fs_empty = Outcome (inr (113, 202, 238)) fs_empty [].
Proof.
  apply (hex_to_rgb_reads_notation true 1 113 202 238 fs_empty); unfold byte; lia.
Defined.

Lemma hex_to_rgb_ignores_tail_witness :
  result (hex_to_rgb "#71CAEEFF" fs_empty) = inr (113, 202, 238).
Proof.
  apply (hex_to_rgb_ignores_tail "#71CAEE" "FF" fs_empty (113, 202, 238)).
  - vm_compute. lia.
  - reflexivity.
Defined.

Lemma hex_to_rgb_short_raises_witness :
  hex_to_rgb "#abc" fs_empty = Outcome (inl (BadColor "#abc")) fs_empty [].
Proof. apply (hex_to_rgb_short_raises "#abc" fs_empty). vm_compute. lia. Defined.

Lemma hex_to_rgb_bands_range_witness :
  result (hex_to_rgb "-1-2-3" fs_empty) = inr (-1, -2, -3) /\
  -15 <= -1 <= 255 /\ -15 <= -2 <= 255 /\ -15 <= -3 <= 255.
Proof.
  split; [reflexivity|].
  apply (hex_to_rgb_bands_range "-1-2-3" fs_empty (-1) (-2) (-3)). reflexivity.
Defined.



Lemma failed_size_writes_nothing_witness :
  files (final (generate_icon rsvg_fails_late box_cover no_blur source
                  ("out", "icon_512.png") 512 brand kw_defaults fs0))
    !! ("out", "icon_512.png") = None.
Proof.
  destruct (failed_size_writes_nothing rsvg_fails_late box_cover no_blur source
              ("out", "icon_512.png") 512 brand kw_defaults fs0) as (_ & _ & Hf).
  - vm_compute. reflexivity.
  - rewrite Hf; [reflexivity|]. vm_compute. discriminate.
Defined.

Lemma output_saved_last_witness :
  exists v pre,
    emitted (generate_icon rsvg_ok box_cover no_blur source
               ("out", "icon_512.png") 512 brand kw_defaults fs0) =
    pre ++ [EvSave v ("out", "icon_512.png") 512 512; EvRemove (temp_path 512)].
Proof.
  destruct (output_saved_last rsvg_ok box_cover no_blur source
              ("out", "icon_512.png") 512 brand kw_defaults fs0) as [Hyes _].
  destruct Hyes as (v & pre & He & _); [vm_compute; reflexivity|].
  exists v, pre. exact He.
Defined.

Lemma generate_icon_touches_two_paths_witness :
  files (final (generate_icon rsvg_ok box_cover no_blur source
                  ("out", "icon_512.png") 512 brand kw_defaults fs0)) !! source =
  Some (Blob "<svg/>").
Proof.
  destruct (generate_icon_touches_two_paths rsvg_ok box_cover no_blur source
              ("out", "icon_512.png") 512 brand kw_defaults fs0 source) as [Hf _].
  - vm_compute. discriminate.
  - discriminate.
  - rewrite Hf. reflexivity.
Defined.

Lemma negative_canvas_raises_witness :
  let o := generate_icon rsvg_ok box_cover no_blur source
             ("out", "icon_512.png") 512 brand kw_corner_padding_06 fs0 in
  result o = inl (BadSize (-102) (-102)) /\
  files (final o) !! ("out", "icon_512.png") = None.
Proof.
  destruct (negative_canvas_raises rsvg_ok box_cover no_blur source
              ("out", "icon_512.png") 512 brand kw_corner_padding_06 fs0
              (fun _ n => RsvgResult true "" (Some (veil n)))
              (Geometry (-102) 307 (-71) (-71))) as (Hr & _ & _ & Hf).
  - reflexivity.
  - vm_compute. reflexivity.
  - cbn. lia.
  - reflexivity.
  - split; [exact Hr|]. rewrite Hf; [reflexivity|]. vm_compute. discriminate.
Defined.

Lemma square_icon_ignores_rounding_options_witness :
  generate_icon rsvg_ok box_cover no_blur source ("out", "icon_512.png") 512 brand
    kw_square fs0 =
  generate_icon rsvg_ok box_cover no_blur source ("out", "icon_512.png") 512 brand
    kw_square_shadow fs0.
Proof.
  apply (square_icon_ignores_rounding_options rsvg_ok box_cover no_blur source
           ("out", "icon_512.png") 512 brand kw_square kw_square_shadow fs0);
    reflexivity.
Defined.

Lemma icon_occludes_shadow_witness :
  exists im,
    files (final (generate_icon rsvg_ok box_cover no_blur source
                    ("out", "icon_1024.png") 1024 brand kw_padded_shadow fs0))
      !! ("out", "icon_1024.png") = Some (Png im) /\
    px im 512 512 = (61, 111, 134, 255).
Proof.
  destruct (icon_occludes_shadow rsvg_ok box_cover no_blur source
              ("out", "icon_1024.png") 1024 brand kw_padded_shadow fs0
              (fun _ n => RsvgResult true "" (Some (veil n)))
              (Geometry 921 51 644 644) (veil 644) 206 512 512)
    as (im & Him & _ & _ & Hpx).
  - reflexivity.
  - reflexivity.
  - vm_compute. reflexivity.
  - reflexivity.
  - vm_compute. reflexivity.
  - vm_compute. discriminate.
  - repeat split; vm_compute; discriminate.
  - intros x y. repeat split; vm_compute; discriminate.
  - vm_compute. reflexivity.
  - vm_compute. reflexivity.
  - exists im. split; [exact Him|].
    rewrite Hpx. vm_compute. reflexivity.
Defined.

Lemma rounded_corners_are_transparent_witness :
  exists im,
    files (final (generate_icon rsvg_ok box_cover no_blur source
                    ("out", "icon_1024.png") 1024 brand kw_padded fs0))
      !! ("out", "icon_1024.png") = Some (Png im) /\
    band_a (px im 10 10) = 0.
Proof.
  destruct (rounded_corners_are_transparent rsvg_ok box_cover no_blur source
              ("out", "icon_1024.png") 1024 brand kw_padded fs0
              (fun _ n => RsvgResult true "" (Some (veil n)))
              (Geometry 921 51 644 644) (veil 644) 206 10 10)
    as (im & Him & _ & _ & Hpx).
  - reflexivity.
  - reflexivity.
  - reflexivity.
  - vm_compute. reflexivity.
  - reflexivity.
  - vm_compute. reflexivity.
  - vm_compute. discriminate.
  - vm_compute. reflexivity.
  - vm_compute. reflexivity.
  - exists im. split; [exact Him|]. exact Hpx.
Defined.

Lemma geometry_nests_in_range_witness :
  exists g, derive_geometry 1024 kw_padded_shadow = inr g /\
            0 <= scaled_content_size g <= rounded_icon_size g /\
            rounded_icon_size g <= 1024.
Proof.
  destruct (geometry_nests_in_range 1024 kw_padded_shadow)
    as (g & Hg & H1 & H2 & H3 & _).
  - lia.
  - split; vm_compute; discriminate.
  - split; vm_compute; discriminate.
  - intros _. vm_compute. discriminate.
  - exists g. split; [exact Hg|]. lia.
Defined.

Lemma shadow_alpha_is_a_byte_witness :
  exists alpha, (0, 0, 0, 229) = (0, 0, 0, alpha) /\ byte alpha.
Proof.
  apply (shadow_alpha_is_a_byte rsvg_ok box_cover no_blur source
           ("out", "icon_512.png") 512 brand kw_shadow fs0 0 10 512 522 114 (0, 0, 0, 229)).
  - split; vm_compute; discriminate.
  - vm_compute. repeat (first [left; reflexivity|right]).
Defined.

Lemma temp_paths_differ_witness : temp_path 16 <> temp_path 32.
Proof. apply (temp_paths_differ 16 32). lia. Defined.

Lemma main_rejects_colour_after_mkdir_witness :
  let o := main rsvg_ok box_cover no_blur cli_bad_colour fs0 in
  result o = inl (BadColor "red") /\
  "generated-icons" ∈ dirs (final o) /\
  emitted o = [EvMkdir "generated-icons"].
Proof.
  destruct (main_rejects_colour_after_mkdir rsvg_ok box_cover no_blur cli_bad_colour fs0)
    as (Hr & _ & Hf & He).
  - vm_compute. reflexivity.
  - reflexivity.
  - split; [exact Hr|]. split; [|exact He].
    rewrite Hf. cbn [dirs make_dir]. set_solver.
Defined.

Lemma main_touches_icon_paths_only_witness :
  files (final (main rsvg_ok box_cover no_blur cli_plain fs0)) !! source =
  Some (Blob "<svg/>").
Proof.
  rewrite (main_touches_icon_paths_only rsvg_ok box_cover no_blur cli_plain fs0 source).
  - reflexivity.
  - refine (bool_decide_unpack _ _). vm_compute. exact I.
Defined.


Lemma main_stops_at_first_exception_witness :
  omap announced (emitted (main rsvg_ok box_cover no_blur cli_plain fs0)) = ICON_SIZES.
Proof.
  destruct (main_stops_at_first_exception rsvg_ok box_cover no_blur cli_plain fs0)
    as (done & rest & Hs & Hd & Hr).
  rewrite Hd, Hs, (Hr tt); [|vm_compute; reflexivity].
  symmetry. apply app_nil_r.
Defined.
